(** * Liberdus notification service: subscription registry and collector client

    A shallow embedding of [src/collectorSubscriber.ts] (class
    [CollectorSubscriber]) and of the notification service that follows it in
    the same file (class [LiberdusNotificationService]), with the properties of
    the specification stated over the embedding.

    Conventions of the embedding:
    - a JavaScript [Map<string, V>] is a [gmap string V], a [Set<string>] a
      [gset string]; a [for ... of] loop over a set is a [set_fold], over an
      array a [foldl].  The loops of the service give the same result in every
      iteration order, so the insertion order of the JavaScript collections is
      not kept;
    - an object mutated in place through a reference that was read from a map
      (a subscription record, an index entry) is the map updated at that key;
    - [new Date().toISOString()] is an argument [now] of the operation that
      reads the clock;
    - functions of libraries and of repository files that are not part of the
      sources ([String.prototype.toLowerCase], [isShardusAddress],
      [Expo.isExpoPushToken]) are section variables. *)

From stdpp Require Import gmap strings list fin_maps fin_sets.
From Stdlib Require Import Ascii String.

#[local] Set Warnings "-clear-no-such-hyp".

Open Scope string_scope.

(** ** Strings *)

(** ['0'.repeat(64)] and friends. *)
Definition repeat_string (s : string) (n : nat) : string :=
  Nat.iter n (String.append s) EmptyString.

(** [toLowerCase] restricted to the ASCII letters; on strings of ASCII
    characters (addresses are hexadecimal) it agrees with the JavaScript
    method.  It instantiates the section variable in the concrete examples. *)
Definition ascii_toLowerCase (c : ascii) : ascii :=
  let n := nat_of_ascii c in
  if (65 <=? n)%nat && (n <=? 90)%nat then ascii_of_nat (n + 32) else c.

Fixpoint toLowerCase_ascii (s : string) : string :=
  match s with
  | EmptyString => EmptyString
  | String c s' => String (ascii_toLowerCase c) (toLowerCase_ascii s')
  end.

(** ** Data model *)

(** [interface Subscription]. *)
Record Subscription := mkSubscription {
  addresses : gset string;
  expoPushToken : option string;   (* string | null *)
  createdAt : string
}.

(** [interface SubscriptionData]: the address set as an array. *)
Record SubscriptionData := mkSubscriptionData {
  data_addresses : list string;
  data_expoPushToken : option string;
  data_createdAt : string
}.

(** [interface SavedSubscriptions].  The field [saved_subscriptions] holds the
    own enumerable properties of the plain object [data.subscriptions], which
    are what [JSON.stringify] writes and what [Object.entries] lists. *)
Record SavedSubscriptions := mkSavedSubscriptions {
  saved_subscriptions : gmap string SubscriptionData;
  lastUpdated : string
}.

(** The content found at the path [this.dataFile], as [JSON.parse] sees it:
    either the text of a snapshot document, which [JSON.parse] decodes to the
    document, or a text on which [JSON.parse] throws a [SyntaxError].  The
    JSON text codec itself is not modelled. *)
Inductive file_content :=
  | Snapshot (saved : SavedSubscriptions)
  | Undecodable (text : string).

(** The state of [LiberdusNotificationService] that the registry operations
    read and write: the two maps, and the content of the snapshot file
    ([None]: no such file). *)
Record Service := mkService {
  subscriptions : gmap string Subscription;
  addressToDevices : gmap string (gset string);
  dataFile : option file_content
}.

#[global] Instance Subscription_eq_dec : EqDecision Subscription.
Proof. solve_decision. Defined.
#[global] Instance SubscriptionData_eq_dec : EqDecision SubscriptionData.
Proof. solve_decision. Defined.
#[global] Instance SavedSubscriptions_eq_dec : EqDecision SavedSubscriptions.
Proof. solve_decision. Defined.
#[global] Instance file_content_eq_dec : EqDecision file_content.
Proof. solve_decision. Defined.
#[global] Instance Service_eq_dec : EqDecision Service.
Proof. solve_decision. Defined.

(** The service as its constructor leaves it before [loadSubscriptions] runs,
    over a given content of the snapshot file. *)
Definition new_service (file : option file_content) : Service :=
  mkService ∅ ∅ file.

(** The empty registry: no subscription, no index entry, no snapshot file. *)
Definition empty_service : Service := new_service None.

(** ** Persistence: [saveSubscriptions] *)

(** [obj[key] = value] on a plain object created by the literal [{}], for a
    [value] that is an object.  Every key creates or overwrites an own
    property, except ["__proto__"]: that assignment runs the setter inherited
    from [Object.prototype], which replaces the prototype of [obj] and creates
    no own property. *)
Definition object_assign {V} (key : string) (value : V) (obj : gmap string V)
  : gmap string V :=
  if decide (key = "__proto__") then obj else <[key := value]> obj.

(** [Array.from(set)].  The code lists the elements in the order of their
    insertion; a [gset] keeps no such order and [elements] lists them in one
    fixed order, so an array made here stands for the array of the code up
    to the order of its elements. *)
Definition Array_from (s : gset string) : list string := elements s.

(** The object literal of the loop of [saveSubscriptions]. *)
Definition subscription_data (subscription : Subscription) : SubscriptionData :=
  mkSubscriptionData (Array_from (addresses subscription))
                     (expoPushToken subscription)
                     (createdAt subscription).

(** The object built by the loop of [saveSubscriptions]. *)
Definition snapshot_of (now : string) (subs : gmap string Subscription)
  : SavedSubscriptions :=
  mkSavedSubscriptions
    (map_fold
       (λ deviceToken subscription data_subscriptions,
          object_assign deviceToken (subscription_data subscription)
                        data_subscriptions)
       ∅ subs)
    now.

(** [saveSubscriptions]: the snapshot overwrites the file.  [fs.writeFile] is
    taken to succeed; when it fails the method only logs. *)
Definition saveSubscriptions (now : string) (st : Service) : Service :=
  mkService (subscriptions st) (addressToDevices st)
            (Some (Snapshot (snapshot_of now (subscriptions st)))).

(** ** Registry operations *)

(** [devices.delete(deviceToken); if (devices.size === 0)
    this.addressToDevices.delete(address)] for the entry [devices] of
    [address], when there is one. *)
Definition deleteDevice (address deviceToken : string)
    (index : gmap string (gset string)) : gmap string (gset string) :=
  match index !! address with
  | Some devices =>
      let devices' := devices ∖ {[deviceToken]} in
      if decide (size devices' = 0) then delete address index
      else <[address := devices']> index
  | None => index
  end.

(** [if (!index.has(address)) index.set(address, new Set());
    index.get(address)!.add(deviceToken)]. *)
Definition addDevice (address deviceToken : string)
    (index : gmap string (gset string)) : gmap string (gset string) :=
  let index' :=
    match index !! address with
    | None => <[address := ∅]> index
    | Some _ => index
    end in
  alter (λ devices, devices ∪ {[deviceToken]}) address index'.

(** [removeSubscription]. *)
Definition removeSubscription (now deviceToken : string) (st : Service)
  : Service :=
  match subscriptions st !! deviceToken with
  | None => st
  | Some subscription =>
      let index :=
        set_fold (λ address index, deleteDevice address deviceToken index)
                 (addressToDevices st) (addresses subscription) in
      saveSubscriptions now
        (mkService (delete deviceToken (subscriptions st)) index (dataFile st))
  end.

(** [getDevicesForAddress]: the entry of the index at the address as given. *)
Definition getDevicesForAddress (address : string) (st : Service)
  : gset string :=
  default ∅ (addressToDevices st !! address).

(** The body of the inner loop of [unlinkOldDevices] for one [otherDevice] of
    [existingDevices], the index entry of [address]. *)
Definition unlinkDevice (deviceToken address pushToken otherDevice : string)
    (st : Service) : Service :=
  if decide (otherDevice ≠ deviceToken) then
    match subscriptions st !! otherDevice with
    | Some otherSub =>
        if decide (expoPushToken otherSub = Some pushToken) then
          let remaining := addresses otherSub ∖ {[address]} in
          let subs :=
            <[otherDevice := mkSubscription remaining (expoPushToken otherSub)
                                            (createdAt otherSub)]>
              (subscriptions st) in
          let subs' :=
            if decide (size remaining = 0) then delete otherDevice subs
            else subs in
          mkService subs' (deleteDevice address otherDevice (addressToDevices st))
                    (dataFile st)
        else st
    | None => st
    end
  else st.

Section Registry.

(** [String.prototype.toLowerCase]. *)
Variable toLowerCase : string → string.

(** [unlinkOldDevices].  The inner loop runs over the devices that the entry
    holds when the loop starts; each round deletes at most the device it is
    visiting, so these are the devices the JavaScript iterator visits. *)
Definition unlinkOldDevices (deviceToken : string) (addrs : list string)
    (pushToken : string) (st : Service) : Service :=
  foldl
    (λ st address,
       match addressToDevices st !! address with
       | Some existingDevices =>
           set_fold (unlinkDevice deviceToken address pushToken)
                    st existingDevices
       | None => st
       end)
    st (toLowerCase <$> addrs).

(** [addSubscription]. *)
Definition addSubscription (now deviceToken : string) (addrs : list string)
    (pushToken : string) (st : Service) : Service :=
  let st1 := unlinkOldDevices deviceToken addrs pushToken st in
  let st2 := removeSubscription now deviceToken st1 in
  let addressSet : gset string := list_to_set (toLowerCase <$> addrs) in
  let subs :=
    <[deviceToken := mkSubscription addressSet (Some pushToken) now]>
      (subscriptions st2) in
  let index :=
    set_fold (λ address index, addDevice address deviceToken index)
             (addressToDevices st2) addressSet in
  saveSubscriptions now (mkService subs index (dataFile st2)).

End Registry.

(** ** Invariants of the registry *)

(** The devices recorded for an address, the empty set when it has no entry. *)
Definition devicesAt (index : gmap string (gset string)) (address : string)
  : gset string :=
  default ∅ (index !! address).

(** Device [d] holds a subscription whose address set contains [a]. *)
Definition subscribed (st : Service) (d a : string) : Prop :=
  ∃ s, subscriptions st !! d = Some s ∧ a ∈ addresses s.

(** The push token stored for a device, if it has a subscription with one. *)
Definition pushTokenOf (st : Service) (d : string) : option string :=
  subscriptions st !! d ≫= expoPushToken.

(** Invariant 1: the index is the inverse of the subscriptions. *)
Definition index_inverse (st : Service) : Prop :=
  ∀ a d, d ∈ getDevicesForAddress a st ↔ subscribed st d a.

(** Invariant 2: no index entry is an empty set. *)
Definition index_no_empty (index : gmap string (gset string)) : Prop :=
  ∀ a devices, index !! a = Some devices → devices ≠ ∅.

(** Invariant 3: no subscription has an empty address set. *)
Definition subscriptions_no_empty (subs : gmap string Subscription) : Prop :=
  ∀ d s, subs !! d = Some s → addresses s ≠ ∅.

(** Invariants 1 and 2, which every call keeps whatever its arguments. *)
Definition consistent (st : Service) : Prop :=
  index_inverse st ∧ index_no_empty (addressToDevices st).

Definition registry_invariant (st : Service) : Prop :=
  consistent st ∧ subscriptions_no_empty (subscriptions st).

(** What [deleteDevice] leaves of an index entry. *)
Definition pruned (deviceToken : string) (entry : option (gset string))
  : option (gset string) :=
  match entry with
  | Some devices =>
      if decide (size (devices ∖ {[deviceToken]}) = 0) then None
      else Some (devices ∖ {[deviceToken]})
  | None => None
  end.

(** What [unlinkDevice] leaves of the subscription of [otherDevice]. *)
Definition stripped (deviceToken address pushToken otherDevice : string)
    (sub : option Subscription) : option Subscription :=
  match sub with
  | Some s =>
      if decide (otherDevice ≠ deviceToken ∧ expoPushToken s = Some pushToken)
      then
        if decide (size (addresses s ∖ {[address]}) = 0) then None
        else Some (mkSubscription (addresses s ∖ {[address]})
                                  (expoPushToken s) (createdAt s))
      else Some s
  | None => None
  end.

(** ** Sequences of registry calls *)

Inductive call :=
  | Add (now deviceToken : string) (addrs : list string) (pushToken : string)
  | Remove (now deviceToken : string).

(** The calls of the first claim: every [addSubscription] has a non-empty
    address list. *)
Definition nonempty_addresses (c : call) : Prop :=
  match c with
  | Add _ _ addrs _ => addrs ≠ []
  | Remove _ _ => True
  end.

(** ** Persistence: [loadSubscriptions] *)

(** The errors thrown in the modelled code. *)
Inductive error :=
  | ENOENT        (* fs.readFile: no such file *)
  | SyntaxError.  (* JSON.parse *)

(** The completion of a statement: normal, or an exception thrown. *)
Inductive completion (A : Type) :=
  | Normal (a : A)
  | Throw (e : error).
Arguments Normal {A} a.
Arguments Throw {A} e.

#[global] Instance completion_ret : MRet completion := @Normal.

(** Sequencing: an exception ends the sequence. *)
#[global] Instance completion_bind : MBind completion :=
  λ A B k c,
    match c with
    | Normal a => k a
    | Throw e => Throw e
    end.

(** [try { body } catch (error) { handler }]. *)
Definition try_catch {A} (body : completion A) (handler : error → completion A)
  : completion A :=
  match body with
  | Normal a => Normal a
  | Throw e => handler e
  end.

(** [fs.readFile(this.dataFile, 'utf8')]. *)
Definition readFile (file : option file_content) : completion file_content :=
  match file with
  | Some content => Normal content
  | None => Throw ENOENT
  end.

(** [JSON.parse(data)] at the type [SavedSubscriptions] of the annotation. *)
Definition JSON_parse_saved (content : file_content)
  : completion SavedSubscriptions :=
  match content with
  | Snapshot saved => Normal saved
  | Undecodable _ => Throw SyntaxError
  end.

(** The lines [loadSubscriptions] writes to the console. *)
Inductive load_diagnostic :=
  | LoadedFromFile (count : nat)   (* console.log: Loaded n subscriptions *)
  | StartingFresh                  (* console.log: no existing file *)
  | ErrorLoading (e : error).      (* console.error *)

(** The object literal of the first loop of [loadSubscriptions]. *)
Definition restored_subscription (subscription : SubscriptionData)
  : Subscription :=
  mkSubscription (list_to_set (data_addresses subscription))
                 (data_expoPushToken subscription)
                 (data_createdAt subscription).

(** The first loop of [loadSubscriptions]: restore the subscriptions. *)
Definition restoreSubscriptions (saved : SavedSubscriptions)
    (subs : gmap string Subscription) : gmap string Subscription :=
  map_fold
    (λ deviceToken subscription subs,
       <[deviceToken := restored_subscription subscription]> subs)
    subs (saved_subscriptions saved).

(** The second loop: rebuild the address-to-device mapping. *)
Definition rebuildIndex (subs : gmap string Subscription)
    (index : gmap string (gset string)) : gmap string (gset string) :=
  map_fold
    (λ deviceToken subscription index,
       set_fold (λ address index, addDevice address deviceToken index)
                index (addresses subscription))
    index subs.

(** [loadSubscriptions].  Both throwing statements come before the first
    write to the maps, so the handler sees the state of the call. *)
Definition loadSubscriptions (st : Service)
  : completion (Service * load_diagnostic) :=
  try_catch
    (data ← readFile (dataFile st);
     saved ← JSON_parse_saved data;
     let subs := restoreSubscriptions saved (subscriptions st) in
     let index := rebuildIndex subs (addressToDevices st) in
     Normal (mkService subs index (dataFile st), LoadedFromFile (size subs)))
    (λ error,
       match error with
       | ENOENT => Normal (st, StartingFresh)
       | _ => Normal (st, ErrorLoading error)
       end).

(** ** The [/subscribe] route *)

(** The body of a request, each field possibly missing. *)
Record SubscriptionRequest := mkSubscriptionRequest {
  req_deviceToken : option string;
  req_addresses : option (list string);
  req_expoPushToken : option string
}.

(** The JSON answers of the route, without their timestamp. *)
Inductive response :=
  | ErrorResponse (status : nat) (error code : string)
  | ApiResponse (success : bool) (message deviceToken : string)
                (addressCount : option nat).

(** [!value] for a string that may be missing. *)
Definition falsy (value : option string) : bool :=
  match value with
  | Some s => bool_decide (s = EmptyString)
  | None => true
  end.

Definition DUMMY_ADDRESS : string := repeat_string "0" 64.

(** An address format for the examples: 64 hexadecimal digits, the shape of
    [DUMMY_ADDRESS].  The function [isShardusAddress] of the repository is not
    among the sources and stays a variable in every general statement. *)
Definition is_hex_digit (c : ascii) : bool :=
  let n := nat_of_ascii c in
  ((48 <=? n)%nat && (n <=? 57)%nat)
  || ((65 <=? n)%nat && (n <=? 70)%nat)
  || ((97 <=? n)%nat && (n <=? 102)%nat).

Fixpoint all_hex (s : string) : bool :=
  match s with
  | EmptyString => true
  | String c s' => is_hex_digit c && all_hex s'
  end.

Definition hex64 (s : string) : bool :=
  (String.length s =? 64)%nat && all_hex s.

(** A push-token format for the examples: the text ExponentPushToken and an
    opening bracket as prefix. *)
Definition exponent_token (s : string) : bool :=
  String.prefix "ExponentPushToken[" s.

Section Service.

Variable toLowerCase : string → string.
(** [isShardusAddress] of [./transformAddress]. *)
Variable isShardusAddress : string → bool.
(** [Expo.isExpoPushToken] of [expo-server-sdk]. *)
Variable isExpoPushToken : string → bool.

Definition perform (st : Service) (c : call) : Service :=
  match c with
  | Add now deviceToken addrs pushToken =>
      addSubscription toLowerCase now deviceToken addrs pushToken st
  | Remove now deviceToken => removeSubscription now deviceToken st
  end.

(** The registry after a sequence of calls. *)
Definition run (calls : list call) (st : Service) : Service :=
  foldl perform st calls.

(** The handler of [POST /subscribe].  The model raises no exception, so
    the [catch] that answers 500 has no counterpart. *)
Definition subscribe (now : string) (req : SubscriptionRequest)
    (st : Service) : Service * response :=
  if falsy (req_deviceToken req) then
    (st, ErrorResponse 400 "Device token is required" "MISSING_DEVICE_TOKEN")
  else
    let deviceToken := default EmptyString (req_deviceToken req) in
    match req_addresses req with
    | None | Some [] =>
        (st, ErrorResponse 400
               "Addresses array is required and must not be empty"
               "MISSING_ADDRESSES")
    | Some addrs =>
        if negb (forallb isShardusAddress addrs) then
          (st, ErrorResponse 400
                 "Invalid address format, expected shardus address"
                 "INVALID_ADDRESS")
        else if bool_decide (DUMMY_ADDRESS ∈ addrs) then
          (removeSubscription now deviceToken st,
           ApiResponse true "Subscription removed successfully"
                       deviceToken None)
        else if falsy (req_expoPushToken req)
                || negb (isExpoPushToken
                           (default EmptyString (req_expoPushToken req))) then
          (st, ErrorResponse 400 "Invalid Expo push token format"
                             "INVALID_EXPO_TOKEN")
        else
          (addSubscription toLowerCase now deviceToken addrs
             (default EmptyString (req_expoPushToken req)) st,
           ApiResponse true "Subscription added successfully" deviceToken
                       (Some (List.length addrs)))
    end.

End Service.

(** ** The collector client: [CollectorSubscriber] *)

Module Collector.

(** [interface WebSocketMessage]. *)
Record WebSocketMessage := mkMessage {
  event : string;
  data : string
}.

(** [interface SubscriberConfig].  The fields of type [number] are integers:
    nothing in the class keeps a caller from configuring a negative one. *)
Record SubscriberConfig := mkConfig {
  host : string;
  port : Z;
  reconnectDelay : Z;
  maxReconnectAttempts : Z;
  verbose : bool
}.

(** [Partial<SubscriberConfig>]. *)
Record PartialConfig := mkPartialConfig {
  opt_host : option string;
  opt_port : option Z;
  opt_reconnectDelay : option Z;
  opt_maxReconnectAttempts : option Z;
  opt_verbose : option bool
}.

(** [value || fallback] on a string and on a number that may be missing: the
    fallback replaces the empty string and the number zero, the falsy values;
    a negative number is truthy and stays. *)
Definition string_or (value : option string) (fallback : string) : string :=
  match value with
  | Some s => if decide (s = EmptyString) then fallback else s
  | None => fallback
  end.

Definition number_or (value : option Z) (fallback : Z) : Z :=
  match value with
  | Some n => if decide (n = 0%Z) then fallback else n
  | None => fallback
  end.

(** A socket made by [new WebSocket(url)], named by the parts of the url. *)
Inductive WebSocket := Socket (host : string) (port : Z).

(** A frame delivered to the [message] listener, as [JSON.parse] sees the
    text of [data.toString()]: the text of an envelope, which [JSON.parse]
    decodes to the message, or a text on which it throws a [SyntaxError]. *)
Inductive RawData :=
  | EnvelopeText (message : WebSocketMessage)
  | MalformedText (text : string).

(** [JSON.parse(data.toString())] at the type of the annotation. *)
Definition JSON_parse (frame : RawData) : completion WebSocketMessage :=
  match frame with
  | EnvelopeText message => Normal message
  | MalformedText _ => Throw SyntaxError
  end.

(** What the client does to the outside: console lines, sockets, timers and
    calls of the registered handler. *)
Inductive output :=
  | LogConnecting (host : string) (port : Z)
  | LogConnected
  | LogClosed (code : nat) (reason : string)
  | LogSocketError
  | LogReceived (message : WebSocketMessage)
  | LogGivingUp              (* 'Max reconnection attempts reached. Giving up.' *)
  | LogAttempt (attempt : nat) (maximum : Z)
                             (* 'Attempting to reconnect... (a/m)' *)
  | LogShuttingDown
  | NewWebSocket (host : string) (port : Z)
  | CloseSocket              (* this.ws.close() *)
  | SetTimeout (delay : Z)   (* setTimeout(() => this.connect(), delay) *)
  | CallHandler (message : WebSocketMessage).

(** The fields of the class.  The attempt counter starts at zero and is only
    incremented and reset, so it is a natural number.  The registered
    callback may throw. *)
Record CollectorSubscriber := mkSubscriber {
  ws : option WebSocket;
  reconnectAttempts : nat;
  isReconnecting : bool;
  config : SubscriberConfig;
  dataHandler : option (WebSocketMessage → completion unit)
}.

(** The constructor. *)
Definition new (partial : PartialConfig) : CollectorSubscriber :=
  mkSubscriber None 0 false
    (mkConfig (string_or (opt_host partial) "localhost")
              (number_or (opt_port partial) 4444%Z)
              (number_or (opt_reconnectDelay partial) 5000%Z)
              (number_or (opt_maxReconnectAttempts partial) 10%Z)
              (default false (opt_verbose partial)))
    None.

(** [connect]: a new socket replaces [this.ws]; the four listeners below are
    registered on it. *)
Definition connect (c : CollectorSubscriber)
  : CollectorSubscriber * list output :=
  let cfg := config c in
  (mkSubscriber (Some (Socket (host cfg) (port cfg))) (reconnectAttempts c)
                (isReconnecting c) cfg (dataHandler c),
   ((if verbose cfg then [LogConnecting (host cfg) (port cfg)] else [])
    ++ [NewWebSocket (host cfg) (port cfg)])%list).

Definition onData (callback : WebSocketMessage → completion unit)
    (c : CollectorSubscriber) : CollectorSubscriber :=
  mkSubscriber (ws c) (reconnectAttempts c) (isReconnecting c) (config c)
               (Some callback).

(** The [open] listener. *)
Definition on_open (c : CollectorSubscriber)
  : CollectorSubscriber * list output :=
  (mkSubscriber (ws c) 0 false (config c) (dataHandler c), [LogConnected]).

(** [handleMessage]. *)
Definition handleMessage (message : WebSocketMessage)
    (c : CollectorSubscriber) : completion (list output) :=
  let logged := if verbose (config c) then [LogReceived message] else [] in
  match dataHandler c with
  | Some handler =>
      _ ← handler message; Normal (logged ++ [CallHandler message])%list
  | None => Normal logged
  end.

(** The [message] listener.  Nothing in it catches: an exception of
    [JSON.parse] or of the handler leaves the listener. *)
Definition on_message (frame : RawData) (c : CollectorSubscriber)
  : completion (list output) :=
  message ← JSON_parse frame;
  handleMessage message c.

(** [attemptReconnect]; [this.reconnectAttempts >= maxReconnectAttempts] is
    [reached]. *)
Definition attemptReconnect (c : CollectorSubscriber)
  : CollectorSubscriber * list output :=
  let maximum := maxReconnectAttempts (config c) in
  let reached := (maximum <=? Z.of_nat (reconnectAttempts c))%Z in
  if isReconnecting c || reached then
    (c, if reached then [LogGivingUp] else [])
  else
    let attempts := S (reconnectAttempts c) in
    (mkSubscriber (ws c) attempts true (config c) (dataHandler c),
     [LogAttempt attempts maximum; SetTimeout (reconnectDelay (config c))]).

(** The [close] listener. *)
Definition on_close (code : nat) (reason : string) (c : CollectorSubscriber)
  : CollectorSubscriber * list output :=
  let c' := mkSubscriber None (reconnectAttempts c) (isReconnecting c)
                         (config c) (dataHandler c) in
  let (c'', out) := attemptReconnect c' in
  (c'', LogClosed code reason :: out).

(** The [error] listener. *)
Definition on_error (c : CollectorSubscriber)
  : CollectorSubscriber * list output :=
  match ws c with
  | Some _ =>
      (mkSubscriber (ws c) (reconnectAttempts c) false (config c)
                    (dataHandler c),
       [LogSocketError; CloseSocket])
  | None => (c, [LogSocketError])
  end.

(** [disconnect]. *)
Definition disconnect (c : CollectorSubscriber)
  : CollectorSubscriber * list output :=
  match ws c with
  | Some _ =>
      (mkSubscriber None (reconnectAttempts c) (isReconnecting c) (config c)
                    (dataHandler c),
       [LogShuttingDown; CloseSocket])
  | None => (c, [])
  end.

(** The callback that the entry point of the service registers with
    [onData]: a receipt event has its payload decoded inside a [try] whose
    [catch] logs, any other event is logged.  [StringUtils.safeJsonParse] is
    a variable; [processAppReceiptData] is an [async] function called without
    [await], so nothing it does is thrown into the callback. *)
Definition AppReceiptDataWsEvent : string := "/data/appReceipt".

Section EntryPoint.

Variable AppReceiptData : Type.
Variable safeJsonParse : string → completion AppReceiptData.

Definition entry_point_handler (message : WebSocketMessage)
  : completion unit :=
  if decide (event message = AppReceiptDataWsEvent) then
    try_catch (_ ← safeJsonParse (data message); Normal ())
              (λ _, Normal ())
  else Normal ().

End EntryPoint.

(** What can happen to a client: the events of its socket, the reconnect
    timer running its callback, and the calls of its public methods. *)
Inductive happening :=
  | Open
  | Message (frame : RawData)
  | Close (code : nat) (reason : string)
  | Error
  | Timer
  | CallConnect
  | CallDisconnect.

(** One happening; [Throw] is an exception that nothing catches. *)
Definition step (h : happening) (c : CollectorSubscriber)
  : completion (CollectorSubscriber * list output) :=
  match h with
  | Open => Normal (on_open c)
  | Message frame => out ← on_message frame c; Normal (c, out)
  | Close code reason => Normal (on_close code reason c)
  | Error => Normal (on_error c)
  | Timer | CallConnect => Normal (connect c)
  | CallDisconnect => Normal (disconnect c)
  end.

(** A sequence of happenings, with everything the client did. *)
Fixpoint run (trace : list happening) (c : CollectorSubscriber)
  : completion (CollectorSubscriber * list output) :=
  match trace with
  | [] => Normal (c, [])
  | h :: trace' =>
      '(c', out) ← step h c;
      '(c'', out') ← run trace' c';
      Normal (c'', (out ++ out')%list)
  end.

(** The reconnects scheduled, the sockets made, and the attempt numbers
    announced. *)
Definition is_timeout (o : output) : bool :=
  match o with SetTimeout _ => true | _ => false end.

Definition scheduled (out : list output) : nat :=
  List.length (List.filter is_timeout out).

Definition is_socket (o : output) : bool :=
  match o with NewWebSocket _ _ => true | _ => false end.

Definition sockets_made (out : list output) : nat :=
  List.length (List.filter is_socket out).

Fixpoint attempts_announced (out : list output) : list nat :=
  match out with
  | [] => []
  | LogAttempt attempt _ :: out' => attempt :: attempts_announced out'
  | _ :: out' => attempts_announced out'
  end.

(** Whether the terminal failure was logged. *)
Definition gave_up (out : list output) : bool :=
  existsb (λ o, match o with LogGivingUp => true | _ => false end) out.

(** A connection lost: a [close] event with the code of an abnormal
    closure. *)
Definition lost : happening := Close 1006 EmptyString.

(** A client whose connection is open, with a budget of two attempts. *)
Definition budget_of_two : CollectorSubscriber :=
  let partial := mkPartialConfig None None None (Some 2%Z) None in
  (on_open (connect (new partial)).1).1.

End Collector.

(** ** Concrete registries for the examples *)

(** An address of 64 hexadecimal digits with upper-case letters. *)
Definition UPPER_ADDRESS : string := repeat_string "AB" 32.

Definition example_calls : list call :=
  [Add "t1" "dev1" ["0xAA"; "0xBB"] "tokA";
   Add "t2" "dev2" ["0xAA"] "tokB";
   Remove "t3" "dev1"].

(** The registry in which [dev1] holds two addresses under [tokA]. *)
Definition two_addresses : Service :=
  run toLowerCase_ascii [Add "t1" "dev1" ["0xAA"; "0xBB"] "tokA"]
      empty_service.

(** The registry in which [dev1] holds one address. *)
Definition one_address : Service :=
  run toLowerCase_ascii [Add "t1" "dev1" [UPPER_ADDRESS] "ExponentPushToken[x]"]
      empty_service.


(** ** Further notions of the registry *)

(** Invariant 5 of the data model: two distinct devices that carry the same
    push token never hold the same address. *)
Definition token_exclusive (st : Service) : Prop :=
  ∀ d1 d2 a tok,
    d1 ≠ d2 → subscribed st d1 a → subscribed st d2 a →
    pushTokenOf st d1 = Some tok → pushTokenOf st d2 ≠ Some tok.


(** Every address that some subscription holds. *)
Definition all_addresses (subs : gmap string Subscription) : gset string :=
  map_fold (λ _ subscription acc, addresses subscription ∪ acc) ∅ subs.

(** ** The read-only routes *)

(** [interface HealthResponse], without its timestamp. *)
Record HealthResponse := mkHealthResponse {
  health_status : string;
  health_subscriptions : nat;
  health_monitoredAddresses : nat
}.

(** The handler of [GET /health]. *)
Definition health (st : Service) : HealthResponse :=
  mkHealthResponse "healthy" (size (subscriptions st))
                   (size (addressToDevices st)).

(** The answers of [GET /subscription/:deviceToken], without timestamp. *)
Inductive subscription_response :=
  | SubscriptionError (status : nat) (error code : string)
  | SubscriptionInfo (deviceToken : string) (addrs : list string)
                     (hasExpoPushToken : bool).

(** [!!subscription.expoPushToken]. *)
Definition hasExpoPushToken (subscription : Subscription) : bool :=
  negb (falsy (expoPushToken subscription)).

(** The handler of [GET /subscription/:deviceToken]. *)
Definition getSubscription (deviceToken : string) (st : Service)
  : subscription_response :=
  match subscriptions st !! deviceToken with
  | None =>
      SubscriptionError 404 "Subscription not found" "SUBSCRIPTION_NOT_FOUND"
  | Some subscription =>
      SubscriptionInfo deviceToken (Array_from (addresses subscription))
                       (hasExpoPushToken subscription)
  end.

(** One element of the list of [GET /subscriptions]. *)
Record listed := mkListed {
  listed_deviceToken : string;
  listed_addresses : list string;
  listed_hasExpoPushToken : bool
}.

(** [interface SubscriptionListResponse], without its timestamp. *)
Record SubscriptionListResponse := mkSubscriptionListResponse {
  list_subscriptions : list listed;
  list_total : nat
}.

(** The handler of [GET /subscriptions]:
    [Array.from(this.subscriptions.entries()).map(...)]. *)
Definition listSubscriptions (st : Service) : SubscriptionListResponse :=
  let subscriptionList :=
    (λ entry : string * Subscription,
       mkListed entry.1 (Array_from (addresses entry.2))
                (hasExpoPushToken entry.2))
      <$> map_to_list (subscriptions st) in
  mkSubscriptionListResponse subscriptionList (List.length subscriptionList).

Section Requests.

Variable toLowerCase : string → string.
Variable isShardusAddress : string → bool.
Variable isExpoPushToken : string → bool.

(** The registry after [POST /subscribe] requests that are served one at a
    time, each with the clock reading at its arrival: the handler of a
    request has sent its answer before the handler of the next one starts.
    The handler gives up control at its [await]s, and requests whose handlers
    overlap there are not described by this definition. *)
Definition serve (requests : list (string * SubscriptionRequest))
    (st : Service) : Service :=
  foldl
    (λ st request,
       (subscribe toLowerCase isShardusAddress isExpoPushToken
                  request.1 request.2 st).1)
    st requests.

End Requests.

(** ** Delivery: [sendNotification] and [sendTestNotificationToAll] *)

Module Notifier.

(** The tickets of [expo-server-sdk]: status [ok] or [error]. *)
Inductive ExpoPushTicket :=
  | TicketOk (id : string)
  | TicketError (message : string).

(** How [expo.sendPushNotificationsAsync] settles: with tickets, or rejected
    with a value that is an [Error] with a message, or with any other value. *)
Inductive provider_outcome :=
  | Tickets (tickets : list ExpoPushTicket)
  | Rejected (message : option string).

(** [interface NotificationResult]. *)
Record NotificationResult := mkNotificationResult {
  success : bool;
  failure : option string;           (* error?: string *)
  ticket : option ExpoPushTicket
}.

Section Provider.

(** [Record<string, any>], the [data] of a notification, and the object
    literal [{}]. *)
Variable Data : Type.
Variable emptyObject : Data.

(** [interface NotificationPayload]. *)
Record NotificationPayload := mkNotificationPayload {
  title : string;
  body : string;
  data : option Data
}.

(** [ExpoPushMessage], with the fields the service sets. *)
Record ExpoPushMessage := mkExpoPushMessage {
  to : string;
  sound : string;
  message_title : string;
  message_body : string;
  message_data : Data
}.

(** [this.expo.sendPushNotificationsAsync]: the delivery provider, taken as
    a function of the messages it is handed. *)
Variable sendPushNotificationsAsync : list ExpoPushMessage → provider_outcome.

Definition failed (message : string) : NotificationResult :=
  mkNotificationResult false (Some message) None.

(** [sendNotification]: the result, and the message lists handed to the
    provider.  The [catch] of the method turns a rejection of the provider
    into a failed result. *)
Definition sendNotification (deviceToken : string)
    (notification : NotificationPayload) (st : Service)
  : NotificationResult * list (list ExpoPushMessage) :=
  match subscriptions st !! deviceToken with
  | None => (failed "No subscription found", [])
  | Some subscription =>
      if falsy (expoPushToken subscription) then
        (failed "No Expo push token", [])
      else
        let message :=
          mkExpoPushMessage (default EmptyString (expoPushToken subscription))
                            "default" (title notification) (body notification)
                            (default emptyObject (data notification)) in
        (match sendPushNotificationsAsync [message] with
         | Tickets [] => failed "No tickets returned"
         | Tickets (TicketError message :: _) =>
             failed (if decide (message = EmptyString) then "Unknown error"
                     else message)
         | Tickets (TicketOk id :: _) =>
             mkNotificationResult true None (Some (TicketOk id))
         | Rejected message => failed (default "Unknown error" message)
         end,
         [[message]])
  end.

(** The payload of [sendTestNotificationToAll] in the round of one device;
    [clock] gives the two clock readings of the round, the local time of the
    body and the timestamp of the data. *)
Variable serverTestData : string → Data.

Definition testPayload (readings : string * string) : NotificationPayload :=
  mkNotificationPayload "⏰ Test Notification"
                        ("Ping from server at " ++ readings.1)
                        (Some (serverTestData readings.2)).

(** The subscriptions a notification can be delivered to, with the push token
    of each: those whose token is neither null nor empty. *)
Definition deliverable (st : Service) : list string :=
  omap (λ entry : string * Subscription,
          if falsy (expoPushToken entry.2) then None
          else expoPushToken entry.2)
       (map_to_list (subscriptions st)).

(** One round of the loop of [sendTestNotificationToAll]: the result for the
    device and the messages handed to the provider are appended to those of
    the rounds before. *)
Definition testRound (clock : string → string * string) (st : Service)
    (acc : list (string * NotificationResult) * list (list ExpoPushMessage))
    (deviceToken : string)
  : list (string * NotificationResult) * list (list ExpoPushMessage) :=
  let sent :=
    sendNotification deviceToken (testPayload (clock deviceToken)) st in
  ((acc.1 ++ [(deviceToken, sent.1)])%list, (acc.2 ++ sent.2)%list).

(** [sendTestNotificationToAll]: one [sendNotification] per device token of
    [Array.from(this.subscriptions.keys())], with the result of each and the
    message lists handed to the provider. *)
Definition sendTestNotificationToAll (clock : string → string * string)
    (st : Service)
  : list (string * NotificationResult) * list (list ExpoPushMessage) :=
  let allTokens := (map_to_list (subscriptions st)).*1 in
  foldl (testRound clock st) ([], []) allTokens.

End Provider.

End Notifier.

(** ** The entry point: [processAppReceiptData] *)

Module Receipts.
Import Notifier.

Section EntryPoint.

Variable Data : Type.
Variable emptyObject : Data.
Variable sendPushNotificationsAsync :
  list (ExpoPushMessage Data) → provider_outcome.

(** The numbers of a receipt and its [additionalInfo] object. *)
Variable Timestamp : Type.
Variable AdditionalInfo : Type.

(** [interface AppReceiptData], without its fee. *)
Record AppReceiptData := mkAppReceiptData {
  txId : string;
  timestamp : Timestamp;
  receipt_success : bool;
  reason : option string;
  from : string;
  receipt_to : option string;
  type : string;
  additionalInfo : option AdditionalInfo
}.

(** What the function computes with, each [None] when the computation
    throws: [toEthereumAddress] of [./transformAddress], which is not among
    the sources; the amount text of a transfer, floating-point arithmetic
    followed by a logging line that divides big integers; and
    [new Date(timestamp).toISOString()]. *)
Variable toEthereumAddress : string → option string.
Variable amountText : AdditionalInfo → option string.
Variable toISOString : Timestamp → option string.

(** The object literal [{ type, from, timestamp }]. *)
Variable receiptData : string → string → string → Data.

(** The title and the body by the type of the receipt: [None] when an
    expression throws, [Some None] at the [return] of the last branch.  A
    transfer without [additionalInfo] throws at ['amount' in additionalInfo]. *)
Definition describe (receipt : AppReceiptData)
  : option (option (string * string)) :=
  if decide (type receipt = "message") then
    sender ← toEthereumAddress (from receipt);
    Some (Some ("📬 New Message",
                "📧 You have a new message from " ++ sender ++ "."))
  else if decide (type receipt = "transfer") then
    info ← additionalInfo receipt;
    amount ← amountText info;
    sender ← toEthereumAddress (from receipt);
    Some (Some ("💳 Payment Received",
                "💰 You received " ++ amount ++ " LIB from " ++ sender
                ++ "."))
  else Some None.

(** [processAppReceiptData]: the message lists handed to the provider.
    Everything that can throw is evaluated before the first
    [sendNotification], and the [catch] of the function only logs. *)
Definition processAppReceiptData (receipt : AppReceiptData) (st : Service)
  : list (list (ExpoPushMessage Data)) :=
  if negb (receipt_success receipt) then []
  else
    let deviceTokens :=
      match receipt_to receipt with
      | Some address => getDevicesForAddress address st
      | None => ∅
      end in
    if decide (size deviceTokens = 0) then []
    else
      match describe receipt with
      | Some (Some (title, body)) =>
          match (sender ← toEthereumAddress (from receipt);
                 time ← toISOString (timestamp receipt);
                 Some (receiptData (type receipt) sender time)) with
          | Some notificationData =>
              List.concat
                ((λ deviceToken,
                    (sendNotification Data emptyObject
                       sendPushNotificationsAsync deviceToken
                       (mkNotificationPayload Data title body
                                              (Some notificationData))
                       st).2)
                   <$> Array_from deviceTokens)
          | None => []
          end
      | _ => []
      end.

End EntryPoint.

(** A provider, a receipt and the conversions for the examples: the provider
    accepts every message, the addresses and the timestamps convert to
    themselves, and the [data] of a notification is kept as a text. *)
Definition accepting (messages : list (ExpoPushMessage string))
  : provider_outcome :=
  Tickets [TicketOk "ticket-1"].

Definition message_receipt : AppReceiptData string unit :=
  mkAppReceiptData string unit "tx1" "2025-01-01" true None "alice"
                   (Some (toLowerCase_ascii UPPER_ADDRESS)) "message" None.

Definition example_data (type from timestamp : string) : string :=
  type ++ ":" ++ from ++ ":" ++ timestamp.

Definition example_process
  : AppReceiptData string unit → Service
    → list (list (ExpoPushMessage string)) :=
  processAppReceiptData string EmptyString accepting string unit Some
                        (λ _, Some "1") Some example_data.

End Receipts.

(** ** Outages of the collector *)

Module CollectorMore.
Import Collector.

(** A reconnect that fails: the timer runs [connect], the new socket reports
    an error and closes. *)
Definition failed_reconnect : list happening := [Timer; Error; lost].

(** [n] failed reconnects in a row. *)
Definition failures (n : nat) : list happening :=
  List.concat (replicate n failed_reconnect).

End CollectorMore.
(** *** Index entries *)

Lemma elem_of_devicesAt index a d :
  d ∈ devicesAt index a ↔ ∃ devices, index !! a = Some devices ∧ d ∈ devices.
Proof.
  unfold devicesAt. destruct (index !! a) as [devices|]; simpl.
  - split; [eauto | by intros (? & [= <-] & ?)].
  - split; [set_solver | by intros (? & ? & ?)].
Qed.

Lemma deleteDevice_lookup a d index a' :
  deleteDevice a d index !! a'
  = if decide (a' = a) then pruned d (index !! a) else index !! a'.
Proof.
  unfold deleteDevice, pruned.
  destruct (index !! a) as [devices|] eqn:E.
  - repeat case_decide; simplify_map_eq; done.
  - case_decide; by simplify_eq.
Qed.

Lemma elem_of_pruned d entry o :
  o ∈ default ∅ (pruned d entry) ↔ o ∈ default ∅ entry ∧ o ≠ d.
Proof.
  unfold pruned. destruct entry as [devices|]; simpl; [|set_solver].
  case_decide as Hsz; simpl; [|set_solver].
  apply size_empty_iff in Hsz. set_solver.
Qed.

Lemma elem_of_deleteDevice a d index a' o :
  o ∈ devicesAt (deleteDevice a d index) a'
  ↔ o ∈ devicesAt index a' ∧ ¬ (a' = a ∧ o = d).
Proof.
  unfold devicesAt. rewrite deleteDevice_lookup.
  case_decide as Ha.
  - subst a'. rewrite elem_of_pruned. naive_solver.
  - naive_solver.
Qed.

Lemma deleteDevice_no_empty a d index :
  index_no_empty index → index_no_empty (deleteDevice a d index).
Proof.
  intros Hne a' devices. rewrite deleteDevice_lookup.
  case_decide; [|by apply Hne].
  unfold pruned. destruct (index !! a); [|done].
  case_decide as Hsz; [done|]. intros [= <-] Hempty.
  apply Hsz. rewrite Hempty. apply size_empty.
Qed.

Lemma addDevice_lookup a d index a' :
  addDevice a d index !! a'
  = if decide (a' = a) then Some (devicesAt index a ∪ {[d]}) else index !! a'.
Proof.
  unfold addDevice, devicesAt.
  destruct (index !! a) as [devices|] eqn:E; simpl;
    case_decide; by simplify_map_eq.
Qed.

Lemma elem_of_addDevice a d index a' o :
  o ∈ devicesAt (addDevice a d index) a'
  ↔ o ∈ devicesAt index a' ∨ (a' = a ∧ o = d).
Proof.
  unfold devicesAt at 1. rewrite addDevice_lookup.
  case_decide as Ha; simpl.
  - subst a'. set_solver.
  - fold (devicesAt index a'). naive_solver.
Qed.

Lemma addDevice_no_empty a d index :
  index_no_empty index → index_no_empty (addDevice a d index).
Proof.
  intros Hne a' devices. rewrite addDevice_lookup.
  case_decide; [|by apply Hne]. intros [= <-]. set_solver.
Qed.

Lemma pruned_not_empty d entry devices :
  pruned d entry = Some devices → devices ≠ ∅.
Proof.
  unfold pruned. destruct entry; [|done].
  case_decide as Hsz; [done|]. intros [= <-] Hempty.
  apply Hsz. rewrite Hempty. apply size_empty.
Qed.

(** *** The loops over an address set *)

Lemma deleteDevice_fold_lookup d index (X : gset string) a :
  set_fold (λ address index, deleteDevice address d index) index X !! a
  = if decide (a ∈ X) then pruned d (index !! a) else index !! a.
Proof.
  revert a.
  pose proof (set_fold_ind_L (λ r (Y : gset string), ∀ a,
    r !! a = if decide (a ∈ Y) then pruned d (index !! a) else index !! a)
    (λ address index, deleteDevice address d index) index) as Hind.
  apply Hind; clear Hind.
  - intros a. by rewrite decide_False by set_solver.
  - intros x Y r Hx IH a. rewrite deleteDevice_lookup, !IH.
    destruct (decide (a = x)) as [->|Ha].
    + by rewrite (decide_False _ _ Hx), decide_True by set_solver.
    + destruct (decide (a ∈ Y)).
      * by rewrite decide_True by set_solver.
      * by rewrite decide_False by set_solver.
Qed.

Lemma elem_of_deleteDevice_fold d index (X : gset string) a o :
  o ∈ devicesAt
        (set_fold (λ address index, deleteDevice address d index) index X) a
  ↔ o ∈ devicesAt index a ∧ ¬ (a ∈ X ∧ o = d).
Proof.
  unfold devicesAt. rewrite deleteDevice_fold_lookup.
  case_decide; [rewrite elem_of_pruned|]; naive_solver.
Qed.

Lemma deleteDevice_fold_no_empty d index (X : gset string) :
  index_no_empty index →
  index_no_empty
    (set_fold (λ address index, deleteDevice address d index) index X).
Proof.
  intros Hne a devices. rewrite deleteDevice_fold_lookup.
  case_decide; [apply pruned_not_empty | apply Hne].
Qed.

Lemma addDevice_fold_lookup d index (X : gset string) a :
  set_fold (λ address index, addDevice address d index) index X !! a
  = if decide (a ∈ X) then Some (devicesAt index a ∪ {[d]}) else index !! a.
Proof.
  revert a.
  pose proof (set_fold_ind_L (λ r (Y : gset string), ∀ a,
    r !! a = if decide (a ∈ Y) then Some (devicesAt index a ∪ {[d]})
             else index !! a)
    (λ address index, addDevice address d index) index) as Hind.
  apply Hind; clear Hind.
  - intros a. by rewrite decide_False by set_solver.
  - intros x Y r Hx IH a. rewrite addDevice_lookup.
    destruct (decide (a = x)) as [->|Ha].
    + rewrite decide_True by set_solver. unfold devicesAt.
      by rewrite IH, (decide_False _ _ Hx).
    + rewrite IH. destruct (decide (a ∈ Y)).
      * by rewrite decide_True by set_solver.
      * by rewrite decide_False by set_solver.
Qed.

Lemma elem_of_addDevice_fold d index (X : gset string) a o :
  o ∈ devicesAt
        (set_fold (λ address index, addDevice address d index) index X) a
  ↔ o ∈ devicesAt index a ∨ (a ∈ X ∧ o = d).
Proof.
  unfold devicesAt at 1. rewrite addDevice_fold_lookup.
  case_decide; simpl; [set_solver|]. fold (devicesAt index a). naive_solver.
Qed.

Lemma addDevice_fold_no_empty d index (X : gset string) :
  index_no_empty index →
  index_no_empty (set_fold (λ address index, addDevice address d index) index X).
Proof.
  intros Hne a devices. rewrite addDevice_fold_lookup.
  case_decide; [|apply Hne]. intros [= <-]. set_solver.
Qed.

(** *** [removeSubscription] *)

Lemma removeSubscription_subscriptions now d st :
  subscriptions (removeSubscription now d st) = delete d (subscriptions st).
Proof.
  unfold removeSubscription.
  destruct (subscriptions st !! d) eqn:E; simpl; [done|].
  by rewrite delete_id.
Qed.

Lemma removeSubscription_index now d st a :
  addressToDevices (removeSubscription now d st) !! a
  = match subscriptions st !! d with
    | Some s =>
        if decide (a ∈ addresses s) then pruned d (addressToDevices st !! a)
        else addressToDevices st !! a
    | None => addressToDevices st !! a
    end.
Proof.
  unfold removeSubscription.
  destruct (subscriptions st !! d) eqn:E; simpl; [|done].
  apply deleteDevice_fold_lookup.
Qed.

Lemma elem_of_getDevices_removeSubscription now d st a o :
  consistent st →
  o ∈ getDevicesForAddress a (removeSubscription now d st)
  ↔ o ∈ getDevicesForAddress a st ∧ o ≠ d.
Proof.
  intros [Hinv _]. specialize (Hinv a d). unfold subscribed in Hinv.
  unfold getDevicesForAddress in *. rewrite removeSubscription_index.
  destruct (subscriptions st !! d) as [s|] eqn:E.
  - case_decide as Ha; [rewrite elem_of_pruned; naive_solver|].
    split; [|naive_solver]. intros Ho. split; [done|]. intros ->.
    apply Hinv in Ho as (? & [= <-] & ?). done.
  - split; [|naive_solver]. intros Ho. split; [done|]. intros ->.
    apply Hinv in Ho as (? & [=] & ?).
Qed.

Lemma removeSubscription_consistent now d st :
  consistent st → consistent (removeSubscription now d st).
Proof.
  intros Hc. split.
  - intros a o. rewrite elem_of_getDevices_removeSubscription by done.
    destruct Hc as [Hinv _]. rewrite (Hinv a o). unfold subscribed.
    rewrite removeSubscription_subscriptions.
    destruct (decide (o = d)) as [->|Hne].
    + rewrite lookup_delete_eq. naive_solver.
    + rewrite lookup_delete_ne by done. naive_solver.
  - destruct Hc as [_ Hne]. intros a devices.
    rewrite removeSubscription_index.
    destruct (subscriptions st !! d); [|apply Hne].
    case_decide; [apply pruned_not_empty | apply Hne].
Qed.

Lemma removeSubscription_no_empty now d st :
  subscriptions_no_empty (subscriptions st) →
  subscriptions_no_empty (subscriptions (removeSubscription now d st)).
Proof.
  intros Hne o s. rewrite removeSubscription_subscriptions.
  intros [_ Hs]%lookup_delete_Some. by eapply Hne.
Qed.

(** *** [unlinkOldDevices] *)

Lemma pushTokenOf_Some st d tok :
  pushTokenOf st d = Some tok
  ↔ ∃ s, subscriptions st !! d = Some s ∧ expoPushToken s = Some tok.
Proof.
  unfold pushTokenOf. destruct (subscriptions st !! d); simpl; naive_solver.
Qed.

Lemma unlinkDevice_subscriptions d a tok o st o' :
  subscriptions (unlinkDevice d a tok o st) !! o'
  = if decide (o' = o) then stripped d a tok o (subscriptions st !! o)
    else subscriptions st !! o'.
Proof.
  unfold unlinkDevice, stripped.
  destruct (decide (o' = o)) as [->|Hne].
  - case_decide as Hod.
    + destruct (subscriptions st !! o) as [s|] eqn:Hs; [|by rewrite Hs].
      case_decide as Htok.
      * rewrite (decide_True _ _ (conj Hod Htok)). simpl.
        case_decide; by simplify_map_eq.
      * rewrite Hs. case_decide; naive_solver.
    + destruct (subscriptions st !! o) as [s|] eqn:Hs; [|done].
      case_decide; naive_solver.
  - case_decide as Hod; [|done].
    destruct (subscriptions st !! o) as [s|] eqn:Hs; [|done].
    case_decide as Htok; [|done]. simpl.
    case_decide; by simplify_map_eq.
Qed.

Lemma unlinkDevice_index d a tok o st :
  addressToDevices (unlinkDevice d a tok o st)
  = if decide (o ≠ d ∧ pushTokenOf st o = Some tok)
    then deleteDevice a o (addressToDevices st)
    else addressToDevices st.
Proof.
  unfold unlinkDevice, pushTokenOf.
  case_decide as Hod; [|by rewrite decide_False by naive_solver].
  destruct (subscriptions st !! o) as [s|] eqn:Hs; simpl;
    [|by rewrite decide_False by naive_solver].
  repeat case_decide; simpl; naive_solver.
Qed.

Lemma unlinkDevice_dataFile d a tok o st :
  dataFile (unlinkDevice d a tok o st) = dataFile st.
Proof.
  unfold unlinkDevice. repeat (case_match; try done).
Qed.

Lemma unlinkDevice_consistent d a tok o st :
  consistent st → consistent (unlinkDevice d a tok o st).
Proof.
  intros [Hinv Hne]. split.
  - intros a' o'. unfold getDevicesForAddress, subscribed.
    rewrite unlinkDevice_index, unlinkDevice_subscriptions.
    specialize (Hinv a' o'). unfold getDevicesForAddress, subscribed in Hinv.
    case_decide as Hm.
    + destruct Hm as [Hod (s & Hs & Htok)%pushTokenOf_Some].
      fold (devicesAt (deleteDevice a o (addressToDevices st)) a').
      rewrite elem_of_deleteDevice. unfold devicesAt. rewrite Hinv.
      destruct (decide (o' = o)) as [->|Hne']; [|naive_solver].
      rewrite Hs. unfold stripped. rewrite decide_True by done.
      case_decide as Hsz.
      * apply size_empty_iff in Hsz. split; [|naive_solver].
        intros [(s' & [= <-] & Ha') Hn]. set_solver.
      * split.
        -- intros [(s' & [= <-] & Ha') Hn]. eexists; split; [done|]. simpl.
           set_solver.
        -- intros (s' & [= <-] & Ha'). simpl in Ha'. set_solver.
    + rewrite Hinv. destruct (decide (o' = o)) as [->|Hne']; [|done].
      unfold stripped. destruct (subscriptions st !! o) as [s|] eqn:Hs; [|done].
      rewrite decide_False; [done|].
      intros [? ?]. apply Hm. split; [done|]. apply pushTokenOf_Some. eauto.
  - rewrite unlinkDevice_index. case_decide; [|done].
    by apply deleteDevice_no_empty.
Qed.

Lemma unlinkDevice_no_empty d a tok o st :
  subscriptions_no_empty (subscriptions st) →
  subscriptions_no_empty (subscriptions (unlinkDevice d a tok o st)).
Proof.
  intros Hne o' s'. rewrite unlinkDevice_subscriptions.
  case_decide; [|apply Hne]. subst o'. unfold stripped.
  destruct (subscriptions st !! o) as [s|] eqn:Hs; [|done].
  case_decide; [|intros [= <-]; by eapply Hne].
  case_decide as Hsz; [done|]. intros [= <-]. simpl. intros Hempty.
  apply Hsz. rewrite Hempty. apply size_empty.
Qed.

(** The inner loop of [unlinkOldDevices] over a set [E] of devices. *)
Lemma unlinkDevice_fold_subscriptions d a tok st (E : gset string) o :
  subscriptions (set_fold (unlinkDevice d a tok) st E) !! o
  = if decide (o ∈ E) then stripped d a tok o (subscriptions st !! o)
    else subscriptions st !! o.
Proof.
  revert o.
  pose proof (set_fold_ind_L (λ r (Y : gset string), ∀ o,
    subscriptions r !! o
    = if decide (o ∈ Y) then stripped d a tok o (subscriptions st !! o)
      else subscriptions st !! o) (unlinkDevice d a tok) st) as Hind.
  apply Hind; clear Hind.
  - intros o. by rewrite decide_False by set_solver.
  - intros x Y r Hx IH o. rewrite unlinkDevice_subscriptions, !IH.
    destruct (decide (o = x)) as [->|Ho].
    + by rewrite (decide_False _ _ Hx), decide_True by set_solver.
    + destruct (decide (o ∈ Y)).
      * by rewrite decide_True by set_solver.
      * by rewrite decide_False by set_solver.
Qed.

Lemma unlinkDevice_fold_preserves (P : Service → Prop) d a tok
    (E : gset string) st :
  (∀ o st, P st → P (unlinkDevice d a tok o st)) →
  P st → P (set_fold (unlinkDevice d a tok) st E).
Proof.
  intros Hstep Hst.
  pose proof (set_fold_ind_L (λ r (_ : gset string), P r)
                (unlinkDevice d a tok) st) as Hind.
  apply Hind; auto.
Qed.

Section RegistryFacts.

Variable toLowerCase : string → string.

Lemma unlinkOldDevices_preserves (P : Service → Prop) d addrs tok st :
  (∀ a o st, P st → P (unlinkDevice d a tok o st)) →
  P st → P (unlinkOldDevices toLowerCase d addrs tok st).
Proof.
  intros Hstep. unfold unlinkOldDevices.
  generalize (toLowerCase <$> addrs). intros l. revert st.
  induction l as [|a l IH]; intros st Hst; simpl; [done|].
  apply IH. destruct (addressToDevices st !! a); [|done].
  apply unlinkDevice_fold_preserves; auto.
Qed.

Lemma unlinkOldDevices_consistent d addrs tok st :
  consistent st → consistent (unlinkOldDevices toLowerCase d addrs tok st).
Proof.
  apply unlinkOldDevices_preserves. intros. by apply unlinkDevice_consistent.
Qed.

Lemma unlinkOldDevices_no_empty d addrs tok st :
  subscriptions_no_empty (subscriptions st) →
  subscriptions_no_empty
    (subscriptions (unlinkOldDevices toLowerCase d addrs tok st)).
Proof.
  apply (unlinkOldDevices_preserves
           (λ st, subscriptions_no_empty (subscriptions st))).
  intros. by apply unlinkDevice_no_empty.
Qed.

(** The device that subscribes is never unlinked from its own addresses. *)
Lemma unlinkOldDevices_own d addrs tok st :
  subscriptions (unlinkOldDevices toLowerCase d addrs tok st) !! d
  = subscriptions st !! d.
Proof.
  apply (unlinkOldDevices_preserves
           (λ r, subscriptions r !! d = subscriptions st !! d)); [|done].
  intros a o r Hr. rewrite unlinkDevice_subscriptions.
  case_decide as Ho; [|done]. subst o. rewrite Hr. unfold stripped.
  destruct (subscriptions st !! d); [|done].
  by rewrite decide_False by naive_solver.
Qed.

(** With one address in the request, every device of its index entry is
    visited once. *)
Lemma unlinkOldDevices_single d a tok st o :
  subscriptions (unlinkOldDevices toLowerCase d [a] tok st) !! o
  = if decide (o ∈ getDevicesForAddress (toLowerCase a) st)
    then stripped d (toLowerCase a) tok o (subscriptions st !! o)
    else subscriptions st !! o.
Proof.
  unfold unlinkOldDevices, getDevicesForAddress. simpl.
  destruct (addressToDevices st !! toLowerCase a) as [E|]; simpl.
  - apply unlinkDevice_fold_subscriptions.
  - by rewrite decide_False by set_solver.
Qed.

(** *** [addSubscription] *)

Lemma addSubscription_subscriptions now d addrs tok st o :
  subscriptions (addSubscription toLowerCase now d addrs tok st) !! o
  = if decide (o = d)
    then Some (mkSubscription (list_to_set (toLowerCase <$> addrs))
                              (Some tok) now)
    else subscriptions (unlinkOldDevices toLowerCase d addrs tok st) !! o.
Proof.
  unfold addSubscription. simpl. rewrite removeSubscription_subscriptions.
  case_decide; by simplify_map_eq.
Qed.

Lemma elem_of_getDevices_addSubscription now d addrs tok st a o :
  consistent st →
  o ∈ getDevicesForAddress a (addSubscription toLowerCase now d addrs tok st)
  ↔ (o = d ∧ a ∈ toLowerCase <$> addrs)
    ∨ (o ≠ d ∧
       o ∈ getDevicesForAddress a
             (unlinkOldDevices toLowerCase d addrs tok st)).
Proof.
  intros Hc. apply (unlinkOldDevices_consistent d addrs tok) in Hc.
  unfold addSubscription, getDevicesForAddress at 1. simpl.
  change (default ∅ (?m !! a)) with (devicesAt m a).
  rewrite elem_of_addDevice_fold, elem_of_list_to_set.
  change (devicesAt (addressToDevices ?s) a)
    with (getDevicesForAddress a s).
  rewrite elem_of_getDevices_removeSubscription by done.
  naive_solver.
Qed.

Lemma addSubscription_consistent now d addrs tok st :
  consistent st →
  consistent (addSubscription toLowerCase now d addrs tok st).
Proof.
  intros Hc. split.
  - intros a o. rewrite elem_of_getDevices_addSubscription by done.
    apply (unlinkOldDevices_consistent d addrs tok) in Hc as [Hinv _].
    rewrite (Hinv a o). unfold subscribed.
    rewrite addSubscription_subscriptions.
    case_decide as Ho.
    + subst o. split.
      * intros [[_ Ha]|[? _]]; [|done]. eexists; split; [done|]. simpl.
        by apply elem_of_list_to_set.
      * intros (s & [= <-] & Ha). simpl in Ha.
        apply elem_of_list_to_set in Ha. by left.
    + naive_solver.
  - apply (unlinkOldDevices_consistent d addrs tok) in Hc.
    apply (removeSubscription_consistent now d) in Hc as [_ Hne].
    unfold addSubscription. simpl. by apply addDevice_fold_no_empty.
Qed.

Lemma addSubscription_no_empty now d addrs tok st :
  addrs ≠ [] →
  subscriptions_no_empty (subscriptions st) →
  subscriptions_no_empty
    (subscriptions (addSubscription toLowerCase now d addrs tok st)).
Proof.
  intros Haddrs Hne o s. rewrite addSubscription_subscriptions.
  case_decide.
  - intros [= <-]. simpl. destruct addrs as [|a addrs]; [done|].
    simpl. set_solver.
  - by apply unlinkOldDevices_no_empty.
Qed.

End RegistryFacts.

(** ** Iteration order

    JavaScript visits a [Set] or a [Map] in insertion order; the embedding
    folds in the order of [elements] and [map_to_list].  The rounds of every
    loop of the service commute, so a loop gives the result of the embedding
    on every enumeration of its collection. *)

Lemma foldl_as_foldr {A B} (f : A → B → B) (b : B) (l : list A) :
  foldl (λ b x, f x b) b l = foldr f b (reverse l).
Proof.
  revert b. induction l as [|x l IH]; intros b; simpl; [done|].
  by rewrite IH, reverse_cons, foldr_app.
Qed.

(** [for (const x of set)] with commuting rounds. *)
Lemma for_of_set {B} (f : string → B → B) (b : B) (X : gset string)
    (l : list string) :
  (∀ x y b, f x (f y b) = f y (f x b)) →
  NoDup l → (∀ x, x ∈ l ↔ x ∈ X) →
  foldl (λ b x, f x b) b l = set_fold f b X.
Proof.
  intros Hcomm Hnodup Hl. rewrite foldl_as_foldr. unfold set_fold. simpl.
  apply (foldr_permutation_proper eq f b); [done|].
  rewrite reverse_Permutation.
  apply NoDup_Permutation; [done|apply NoDup_elements|].
  intros x. by rewrite Hl, elem_of_elements.
Qed.

(** [for (const [key, value] of map)] with rounds that commute on distinct
    keys. *)
Lemma for_of_map {A B} (f : string → A → B → B) (b : B) (m : gmap string A)
    (l : list (string * A)) :
  (∀ i x j y b, i ≠ j → f i x (f j y b) = f j y (f i x b)) →
  NoDup l → (∀ i x, (i, x) ∈ l ↔ m !! i = Some x) →
  foldl (λ b entry, f entry.1 entry.2 b) b l = map_fold f b m.
Proof.
  intros Hcomm Hnodup Hl.
  rewrite (foldl_as_foldr (λ entry b, f entry.1 entry.2 b)), map_fold_foldr.
  assert (reverse l ≡ₚ map_to_list m) as Hperm.
  { rewrite reverse_Permutation.
    apply NoDup_Permutation; [done|apply NoDup_map_to_list|].
    intros [i x]. by rewrite Hl, elem_of_map_to_list. }
  rewrite <- (foldr_ext (λ entry b, f entry.1 entry.2 b) (uncurry f) b b
                (map_to_list m) (map_to_list m)); [|by intros [? ?]|done..].
  apply (foldr_permutation eq (λ entry b, f entry.1 entry.2 b) b); [|done].
  intros j1 [i x] j2 [j y] b' Hj H1 H2. simpl.
  destruct (decide (i = j)) as [->|Hij]; [|by apply Hcomm].
  assert ((j, x) ∈ reverse l) as Hx by (by eapply list_elem_of_lookup_2).
  assert ((j, y) ∈ reverse l) as Hy by (by eapply list_elem_of_lookup_2).
  rewrite elem_of_reverse, Hl in Hx. rewrite elem_of_reverse, Hl in Hy.
  by simplify_eq.
Qed.

Lemma pruned_alt d entry :
  pruned d entry
  = match entry with
    | Some devices =>
        if decide (devices ∖ {[d]} = ∅) then None else Some (devices ∖ {[d]})
    | None => None
    end.
Proof.
  unfold pruned. destruct entry as [devices|]; [|done].
  case_decide as Hsz; case_decide as Hempty; try done.
  - apply size_empty_iff in Hsz. by apply leibniz_equiv in Hsz.
  - rewrite Hempty, size_empty in Hsz. done.
Qed.

Lemma pruned_comm d1 d2 entry :
  pruned d1 (pruned d2 entry) = pruned d2 (pruned d1 entry).
Proof.
  rewrite !pruned_alt. destruct entry as [devices|]; [|done].
  repeat case_decide; try done; try (f_equal; set_solver);
    exfalso; set_solver.
Qed.

Lemma deleteDevice_comm a1 d1 a2 d2 index :
  deleteDevice a1 d1 (deleteDevice a2 d2 index)
  = deleteDevice a2 d2 (deleteDevice a1 d1 index).
Proof.
  apply map_eq. intros a. rewrite !deleteDevice_lookup.
  repeat case_decide; simplify_eq; try done. apply pruned_comm.
Qed.

Lemma addDevice_comm a1 d1 a2 d2 index :
  addDevice a1 d1 (addDevice a2 d2 index)
  = addDevice a2 d2 (addDevice a1 d1 index).
Proof.
  apply map_eq. intros a. rewrite !addDevice_lookup. unfold devicesAt.
  rewrite !addDevice_lookup.
  repeat case_decide; simplify_eq; try done. simpl. f_equal.
  unfold devicesAt. set_solver.
Qed.

Lemma Service_eq (st1 st2 : Service) :
  subscriptions st1 = subscriptions st2 →
  addressToDevices st1 = addressToDevices st2 →
  dataFile st1 = dataFile st2 →
  st1 = st2.
Proof. destruct st1, st2. simpl. by intros -> -> ->. Qed.

Lemma unlinkDevice_pushTokenOf d a tok o st o' :
  o' ≠ o → pushTokenOf (unlinkDevice d a tok o st) o' = pushTokenOf st o'.
Proof.
  intros Hne. unfold pushTokenOf.
  by rewrite unlinkDevice_subscriptions, decide_False.
Qed.

Lemma unlinkDevice_comm d a tok o1 o2 st :
  unlinkDevice d a tok o1 (unlinkDevice d a tok o2 st)
  = unlinkDevice d a tok o2 (unlinkDevice d a tok o1 st).
Proof.
  destruct (decide (o1 = o2)) as [->|Hne]; [done|].
  apply Service_eq.
  - apply map_eq. intros o. rewrite !unlinkDevice_subscriptions.
    repeat case_decide; simplify_eq; done.
  - rewrite !unlinkDevice_index, !unlinkDevice_pushTokenOf by done.
    repeat case_decide; try done. apply deleteDevice_comm.
  - by rewrite !unlinkDevice_dataFile.
Qed.

(** The loop of [removeSubscription]. *)
Lemma removeSubscription_any_order d index (X : gset string) l :
  NoDup l → (∀ a, a ∈ l ↔ a ∈ X) →
  foldl (λ index address, deleteDevice address d index) index l
  = set_fold (λ address index, deleteDevice address d index) index X.
Proof.
  apply (for_of_set (λ address index, deleteDevice address d index)).
  intros. apply deleteDevice_comm.
Qed.

(** The index loop of [addSubscription]. *)
Lemma addSubscription_any_order d index (X : gset string) l :
  NoDup l → (∀ a, a ∈ l ↔ a ∈ X) →
  foldl (λ index address, addDevice address d index) index l
  = set_fold (λ address index, addDevice address d index) index X.
Proof.
  apply (for_of_set (λ address index, addDevice address d index)).
  intros. apply addDevice_comm.
Qed.

(** The inner loop of [unlinkOldDevices]. *)
Lemma unlinkOldDevices_any_order d a tok st (E : gset string) l :
  NoDup l → (∀ o, o ∈ l ↔ o ∈ E) →
  foldl (λ st otherDevice, unlinkDevice d a tok otherDevice st) st l
  = set_fold (unlinkDevice d a tok) st E.
Proof.
  apply (for_of_set (unlinkDevice d a tok)).
  intros. apply unlinkDevice_comm.
Qed.

(** The loop of [saveSubscriptions]. *)
Lemma saveSubscriptions_any_order now (subs : gmap string Subscription) l :
  NoDup l → (∀ d s, (d, s) ∈ l ↔ subs !! d = Some s) →
  foldl (λ data entry,
           object_assign entry.1 (subscription_data entry.2) data) ∅ l
  = saved_subscriptions (snapshot_of now subs).
Proof.
  apply (for_of_map (λ d s data, object_assign d (subscription_data s) data)).
  intros i x j y data Hij. unfold object_assign.
  repeat case_decide; try done. by apply insert_insert_ne.
Qed.

(** The two loops of [loadSubscriptions]. *)
Lemma restoreSubscriptions_any_order saved subs l :
  NoDup l → (∀ d s, (d, s) ∈ l ↔ saved_subscriptions saved !! d = Some s) →
  foldl (λ subs entry, <[entry.1 := restored_subscription entry.2]> subs)
        subs l
  = restoreSubscriptions saved subs.
Proof.
  apply (for_of_map (λ d s subs, <[d := restored_subscription s]> subs)).
  intros i x j y m Hij. by apply insert_insert_ne.
Qed.

Lemma rebuildIndex_any_order (subs : gmap string Subscription) index l :
  NoDup l → (∀ d s, (d, s) ∈ l ↔ subs !! d = Some s) →
  foldl (λ index entry,
           set_fold (λ address index, addDevice address entry.1 index)
                    index (addresses entry.2))
        index l
  = rebuildIndex subs index.
Proof.
  apply (for_of_map
           (λ d s index,
              set_fold (λ address index, addDevice address d index)
                       index (addresses s))).
  intros i x j y m _. apply map_eq. intros a.
  rewrite !addDevice_fold_lookup. unfold devicesAt.
  rewrite !addDevice_fold_lookup.
  repeat case_decide; try done. simpl. f_equal. set_solver.
Qed.

(** ** The registry claims *)

Lemma empty_service_invariant : registry_invariant empty_service.
Proof.
  split; [split|].
  - intros a d. unfold getDevicesForAddress, subscribed. simpl.
    rewrite lookup_empty. simpl. split; [set_solver|].
    intros (s & Hs & _). by rewrite lookup_empty in Hs.
  - intros a devices. simpl. by rewrite lookup_empty.
  - intros d s. simpl. by rewrite lookup_empty.
Qed.

Section RegistryClaims.

Variable toLowerCase : string → string.

Lemma perform_consistent c st :
  consistent st → consistent (perform toLowerCase st c).
Proof.
  destruct c; simpl.
  - apply addSubscription_consistent.
  - apply removeSubscription_consistent.
Qed.

Lemma run_consistent calls st :
  consistent st → consistent (run toLowerCase calls st).
Proof.
  unfold run. revert st.
  induction calls as [|c calls IH]; intros st Hst; simpl; [done|].
  apply IH. by apply perform_consistent.
Qed.

Lemma run_invariant calls st :
  Forall nonempty_addresses calls →
  registry_invariant st → registry_invariant (run toLowerCase calls st).
Proof.
  unfold run. intros Hcalls. revert st.
  induction Hcalls as [|c calls Hc _ IH]; intros st [Hst Hne]; simpl;
    [done|].
  apply IH. split; [by apply perform_consistent|].
  destruct c; simpl in *.
  - by apply addSubscription_no_empty.
  - by apply removeSubscription_no_empty.
Qed.

(** C1.  After every call of a sequence of [addSubscription] calls with
    non-empty address lists and [removeSubscription] calls that starts from
    the empty registry, the index is exactly the inverse of the
    subscriptions, no index entry is an empty set and no subscription has an
    empty address set. *)
Theorem registry_invariant_after_each_call (calls : list call) (n : nat) :
  Forall nonempty_addresses calls →
  let st := run toLowerCase (take n calls) empty_service in
  (∀ a d, d ∈ getDevicesForAddress a st
          ↔ ∃ s, subscriptions st !! d = Some s ∧ a ∈ addresses s)
  ∧ (∀ a devices, addressToDevices st !! a = Some devices → devices ≠ ∅)
  ∧ (∀ d s, subscriptions st !! d = Some s → addresses s ≠ ∅).
Proof.
  intros Hcalls st.
  assert (registry_invariant st) as [[Hinv Hidx] Hsubs].
  { apply run_invariant; [|apply empty_service_invariant].
    by apply Forall_take. }
  done.
Qed.

(** C4, as amended.  In a registry whose index is the inverse of its
    subscriptions, let device [A] be subscribed to the normalized address of
    [A1] with push token [P].  Then [addSubscription(B, [A1], P)] with
    [B ≠ A] leaves [A] with its former addresses but that one, and with no
    subscription at all if it was the only one; [A] leaves the index entry
    of the address; and the entry afterwards holds [B] and exactly the
    devices it held before whose push token is not [P] - so it is [{B}]
    when every other device it held carried [P]. *)
Theorem reassignment (now A B A1 P : string) (st : Service)
    (sA : Subscription) :
  consistent st →
  A ≠ B →
  subscriptions st !! A = Some sA →
  toLowerCase A1 ∈ addresses sA →
  expoPushToken sA = Some P →
  let a1 := toLowerCase A1 in
  let st' := addSubscription toLowerCase now B [A1] P st in
  subscriptions st' !! A
    = (if decide (addresses sA ∖ {[a1]} = ∅) then None
       else Some (mkSubscription (addresses sA ∖ {[a1]}) (Some P)
                                 (createdAt sA)))
  ∧ (A ∉ getDevicesForAddress a1 st')
  ∧ (∀ d, d ∈ getDevicesForAddress a1 st'
          ↔ d = B ∨ (d ∈ getDevicesForAddress a1 st
                     ∧ pushTokenOf st d ≠ Some P))
  ∧ ((∀ d, d ∈ getDevicesForAddress a1 st → d ≠ B →
           pushTokenOf st d = Some P) →
     getDevicesForAddress a1 st' = {[B]}).
Proof.
  intros Hc HAB HA Ha1 HP a1 st'.
  assert (A ∈ getDevicesForAddress a1 st) as HAin.
  { apply Hc. by exists sA. }
  assert (∀ d, d ∈ getDevicesForAddress a1 st'
               ↔ d = B ∨ (d ∈ getDevicesForAddress a1 st
                          ∧ pushTokenOf st d ≠ Some P)) as Hentry.
  { intros d. unfold st'.
    rewrite elem_of_getDevices_addSubscription by done.
    pose proof (unlinkOldDevices_consistent toLowerCase B [A1] P st Hc)
      as [Hinv' _].
    rewrite (Hinv' a1 d). unfold subscribed.
    rewrite unlinkOldDevices_single. fold a1.
    destruct Hc as [Hinv _]. specialize (Hinv a1 d).
    unfold subscribed in Hinv.
    destruct (decide (d = B)) as [->|HdB].
    { split; [by left|]. intros _. left. split; [done|].
      simpl. set_solver. }
    case_decide as HdE.
    - apply Hinv in HdE as Hsub. destruct Hsub as (s & Hs & Has).
      rewrite Hs. unfold stripped, pushTokenOf. rewrite Hs. simpl.
      case_decide as Hm.
      + destruct Hm as [_ Htok]. split.
        * intros [[? _]|[_ (s' & Hs' & Hin)]]; [done|].
          case_decide; [done|]. simplify_eq. simpl in Hin. set_solver.
        * intros [?|[_ Hn]]; [done|]. by rewrite Htok in Hn.
      + split; [|naive_solver].
        intros _. right. split; [done|]. naive_solver.
    - split; [|naive_solver].
      intros [[? _]|[_ Hsub]]; [done|]. by apply Hinv in Hsub. }
  split; [|split; [|split]].
  - unfold st'. rewrite addSubscription_subscriptions.
    rewrite decide_False by done.
    rewrite unlinkOldDevices_single. fold a1.
    rewrite decide_True by done. rewrite HA. unfold stripped.
    rewrite decide_True by done. rewrite HP.
    case_decide as Hsz; case_decide as Hempty; try done.
    + apply size_empty_iff in Hsz. by apply leibniz_equiv in Hsz.
    + rewrite Hempty, size_empty in Hsz. done.
  - rewrite Hentry. intros [?|[_ Hn]]; [done|].
    apply Hn. unfold pushTokenOf. by rewrite HA.
  - done.
  - intros Hall. apply set_eq. intros d. rewrite Hentry.
    rewrite elem_of_singleton. split; [|by left].
    intros [?|[Hd Hn]]; [done|].
    destruct (decide (d = B)); [done|]. by apply Hall in Hd.
Qed.

(** C5.  For a device [D] that holds a subscription, in a registry whose
    index is the inverse of its subscriptions, [addSubscription(D,
    newAddresses, newPushToken)] first reaches a state without any
    subscription or index entry of [D] and installs the new subscription on
    it; afterwards the subscription of [D] holds exactly the normalized new
    addresses, [D] is in the index entry of exactly these, and no prior
    address that is not among them resolves to [D]. *)
Theorem full_replace (now D : string) (newAddresses : list string)
    (newPushToken : string) (st : Service) (prior : Subscription) :
  consistent st →
  subscriptions st !! D = Some prior →
  let normalized : gset string :=
    list_to_set (toLowerCase <$> newAddresses) in
  let st2 :=
    removeSubscription now D
      (unlinkOldDevices toLowerCase D newAddresses newPushToken st) in
  let st' := addSubscription toLowerCase now D newAddresses newPushToken st in
  (subscriptions st2 !! D = None ∧ ∀ a, D ∉ getDevicesForAddress a st2)
  ∧ st' = saveSubscriptions now
            (mkService
               (<[D := mkSubscription normalized (Some newPushToken) now]>
                  (subscriptions st2))
               (set_fold (λ address index, addDevice address D index)
                         (addressToDevices st2) normalized)
               (dataFile st2))
  ∧ subscriptions st' !! D
    = Some (mkSubscription normalized (Some newPushToken) now)
  ∧ (∀ a, D ∈ getDevicesForAddress a st' ↔ a ∈ normalized)
  ∧ (∀ a, a ∈ addresses prior → a ∉ normalized →
          D ∉ getDevicesForAddress a st').
Proof.
  intros Hc Hprior normalized st2 st'.
  assert (∀ a, D ∈ getDevicesForAddress a st' ↔ a ∈ normalized) as Hres.
  { intros a. unfold st'.
    rewrite elem_of_getDevices_addSubscription by done.
    unfold normalized. rewrite elem_of_list_to_set. naive_solver. }
  split; [split|split; [|split; [|split]]].
  - unfold st2. rewrite removeSubscription_subscriptions.
    apply lookup_delete_eq.
  - intros a. unfold st2.
    rewrite elem_of_getDevices_removeSubscription; [naive_solver|].
    by apply unlinkOldDevices_consistent.
  - done.
  - unfold st'. rewrite addSubscription_subscriptions.
    by rewrite decide_True.
  - done.
  - intros a _ Hnot. by rewrite Hres.
Qed.

End RegistryClaims.

(** C10.  [removeSubscription(d)] on any registry leaves the subscription of
    every other device as it was, leaves the index entry of every address
    outside the subscription of [d] as it was, and at an address of the
    subscription of [d] only takes [d] out of the entry, dropping the entry
    when nothing is left.  When [d] has no subscription the state does not
    change, so a second [removeSubscription(d)] changes nothing. *)
Theorem removeSubscription_frame (now d : string) (st : Service) :
  let st' := removeSubscription now d st in
  (∀ e, e ≠ d → subscriptions st' !! e = subscriptions st !! e)
  ∧ (∀ a, ¬ subscribed st d a →
          addressToDevices st' !! a = addressToDevices st !! a)
  ∧ (∀ a, subscribed st d a →
          addressToDevices st' !! a
          = match addressToDevices st !! a with
            | Some devices =>
                if decide (devices ∖ {[d]} = ∅) then None
                else Some (devices ∖ {[d]})
            | None => None
            end)
  ∧ (subscriptions st !! d = None → st' = st)
  ∧ (∀ now', removeSubscription now' d st' = st').
Proof.
  intros st'. split; [|split; [|split; [|split]]].
  - intros e He. unfold st'. rewrite removeSubscription_subscriptions.
    by rewrite lookup_delete_ne.
  - intros a Hnot. unfold st'. rewrite removeSubscription_index.
    destruct (subscriptions st !! d) as [s|] eqn:Hs; [|done].
    rewrite decide_False; [done|]. intros Ha. apply Hnot. by exists s.
  - intros a (s & Hs & Ha). unfold st'. rewrite removeSubscription_index, Hs.
    rewrite decide_True by done. unfold pruned.
    destruct (addressToDevices st !! a) as [devices|]; [|done].
    case_decide as Hsz; case_decide as Hempty; try done.
    + apply size_empty_iff in Hsz. by apply leibniz_equiv in Hsz.
    + rewrite Hempty, size_empty in Hsz. done.
  - intros Hnone. unfold st', removeSubscription. by rewrite Hnone.
  - intros now'. unfold removeSubscription at 1.
    unfold st'. rewrite removeSubscription_subscriptions.
    by rewrite lookup_delete_eq.
Qed.

(** ** The registry claims on concrete registries *)

(** The scenario of the specification: a second device takes over the only
    address of the first, under the same push token. *)
Example scenario_same_token :
  let st :=
    run toLowerCase_ascii
        [Add "t1" "dev1" ["0xAA"] "tokA"; Add "t2" "dev2" ["0xAA"] "tokA"]
        empty_service in
  getDevicesForAddress "0xaa" st = {["dev2"]}
  ∧ subscriptions st !! "dev1" = None.
Proof. split; vm_compute; reflexivity. Qed.

Lemma registry_invariant_after_each_call_witness :
  Forall nonempty_addresses example_calls
  ∧ let st := run toLowerCase_ascii (take 3 example_calls) empty_service in
    (∀ a d, d ∈ getDevicesForAddress a st
            ↔ ∃ s, subscriptions st !! d = Some s ∧ a ∈ addresses s)
    ∧ (∀ a devices, addressToDevices st !! a = Some devices → devices ≠ ∅)
    ∧ (∀ d s, subscriptions st !! d = Some s → addresses s ≠ ∅).
Proof.
  split.
  - repeat constructor; done.
  - apply (registry_invariant_after_each_call toLowerCase_ascii
             example_calls 3).
    repeat constructor; done.
Defined.

Lemma two_addresses_consistent : consistent two_addresses.
Proof. apply run_consistent, empty_service_invariant. Qed.

Lemma reassignment_witness :
  let sA := mkSubscription {["0xaa"; "0xbb"]} (Some "tokA") "t1" in
  let st' :=
    addSubscription toLowerCase_ascii "t2" "dev2" ["0xAA"] "tokA"
                    two_addresses in
  subscriptions st' !! "dev1"
    = (if decide (addresses sA ∖ {["0xaa"]} = ∅) then None
       else Some (mkSubscription (addresses sA ∖ {["0xaa"]}) (Some "tokA")
                                 "t1"))
  ∧ ("dev1" ∉ getDevicesForAddress "0xaa" st')
  ∧ (∀ d, d ∈ getDevicesForAddress "0xaa" st'
          ↔ d = "dev2" ∨ (d ∈ getDevicesForAddress "0xaa" two_addresses
                           ∧ pushTokenOf two_addresses d ≠ Some "tokA"))
  ∧ ((∀ d, d ∈ getDevicesForAddress "0xaa" two_addresses → d ≠ "dev2" →
           pushTokenOf two_addresses d = Some "tokA") →
     getDevicesForAddress "0xaa" st' = {["dev2"]}).
Proof.
  apply (reassignment toLowerCase_ascii "t2" "dev1" "dev2" "0xAA" "tokA"
           two_addresses
           (mkSubscription {["0xaa"; "0xbb"]} (Some "tokA") "t1")).
  - apply two_addresses_consistent.
  - done.
  - vm_compute. reflexivity.
  - vm_compute. reflexivity.
  - reflexivity.
Defined.

(** C4 as stated fails when the address is also held by a device that carries
    another push token: that device stays in the entry. *)
Lemma reassignment_counterexample :
  let st :=
    run toLowerCase_ascii
        [Add "t1" "devA" ["0xAA"] "tokP"; Add "t2" "devC" ["0xAA"] "tokQ"]
        empty_service in
  let st' := addSubscription toLowerCase_ascii "t3" "devB" ["0xAA"] "tokP" st in
  subscriptions st !! "devA" = Some (mkSubscription {["0xaa"]} (Some "tokP") "t1")
  ∧ getDevicesForAddress "0xaa" st' = {["devB"; "devC"]}
  ∧ getDevicesForAddress "0xaa" st' ≠ {["devB"]}.
Proof.
  split; [|split].
  - vm_compute. reflexivity.
  - vm_compute. reflexivity.
  - intros H. apply (f_equal (λ X : gset string, bool_decide ("devC" ∈ X))) in H.
    vm_compute in H. discriminate H.
Defined.

Lemma full_replace_witness :
  let prior := mkSubscription {["0xaa"; "0xbb"]} (Some "tokA") "t1" in
  let normalized : gset string := list_to_set (toLowerCase_ascii <$> ["0xCC"]) in
  let st2 :=
    removeSubscription "t2" "dev1"
      (unlinkOldDevices toLowerCase_ascii "dev1" ["0xCC"] "tokB"
                        two_addresses) in
  let st' :=
    addSubscription toLowerCase_ascii "t2" "dev1" ["0xCC"] "tokB"
                    two_addresses in
  (subscriptions st2 !! "dev1" = None
   ∧ ∀ a, "dev1" ∉ getDevicesForAddress a st2)
  ∧ st' = saveSubscriptions "t2"
            (mkService
               (<["dev1" := mkSubscription normalized (Some "tokB") "t2"]>
                  (subscriptions st2))
               (set_fold (λ address index, addDevice address "dev1" index)
                         (addressToDevices st2) normalized)
               (dataFile st2))
  ∧ subscriptions st' !! "dev1"
    = Some (mkSubscription normalized (Some "tokB") "t2")
  ∧ (∀ a, "dev1" ∈ getDevicesForAddress a st' ↔ a ∈ normalized)
  ∧ (∀ a, a ∈ addresses prior → a ∉ normalized →
          "dev1" ∉ getDevicesForAddress a st').
Proof.
  apply (full_replace toLowerCase_ascii "t2" "dev1" ["0xCC"] "tokB"
           two_addresses
           (mkSubscription {["0xaa"; "0xbb"]} (Some "tokA") "t1")).
  - apply two_addresses_consistent.
  - vm_compute. reflexivity.
Defined.

(** What [getDevicesForAddress] does return after any sequence of calls: the
    devices whose subscription contains the address exactly as it is given. *)
Lemma getDevicesForAddress_exact toLowerCase calls a d :
  let st := run toLowerCase calls empty_service in
  d ∈ getDevicesForAddress a st
  ↔ ∃ s, subscriptions st !! d = Some s ∧ a ∈ addresses s.
Proof.
  intros st.
  destruct (run_consistent toLowerCase calls empty_service) as [Hinv _];
    [apply empty_service_invariant|].
  apply Hinv.
Qed.

(** C2 at its failing input.  The route accepts a subscription for an
    address written in upper case and the write path stores it lower-cased;
    [getDevicesForAddress] looks up the address as given, so the address the
    device subscribed with resolves to no device. *)
Theorem getDevicesForAddress_not_normalized :
  let req :=
    mkSubscriptionRequest (Some "dev1") (Some [UPPER_ADDRESS])
                          (Some "ExponentPushToken[x]") in
  let result :=
    subscribe toLowerCase_ascii hex64 exponent_token "t1" req empty_service in
  result = (one_address,
            ApiResponse true "Subscription added successfully" "dev1" (Some 1))
  ∧ subscriptions one_address !! "dev1"
    = Some (mkSubscription {[toLowerCase_ascii UPPER_ADDRESS]}
                           (Some "ExponentPushToken[x]") "t1")
  ∧ getDevicesForAddress UPPER_ADDRESS one_address = ∅
  ∧ getDevicesForAddress (toLowerCase_ascii UPPER_ADDRESS) one_address
    = {["dev1"]}.
Proof. split; [|split; [|split]]; vm_compute; reflexivity. Qed.

(** ** Persistence *)

Lemma snapshot_of_lookup now subs k :
  saved_subscriptions (snapshot_of now subs) !! k
  = if decide (k = "__proto__") then None
    else subscription_data <$> subs !! k.
Proof.
  unfold snapshot_of. simpl. revert k.
  apply (map_fold_weak_ind (λ r (m : gmap string Subscription), ∀ k,
    r !! k = if decide (k = "__proto__") then None
             else subscription_data <$> m !! k)).
  - intros k. rewrite !lookup_empty. by case_decide.
  - intros i x m r Hi IH k. unfold object_assign.
    destruct (decide (k = "__proto__")) as [->|Hk].
    + case_decide; [apply IH|]. rewrite lookup_insert_ne by done.
      by rewrite IH, decide_True.
    + case_decide as Hi'.
      * subst i. rewrite IH, decide_False by done.
        by rewrite lookup_insert_ne.
      * destruct (decide (i = k)) as [->|Hik].
        -- by rewrite !lookup_insert_eq.
        -- rewrite !lookup_insert_ne by done.
           by rewrite IH, decide_False.
Qed.

Lemma restoreSubscriptions_lookup saved subs k :
  restoreSubscriptions saved subs !! k
  = match saved_subscriptions saved !! k with
    | Some d => Some (restored_subscription d)
    | None => subs !! k
    end.
Proof.
  unfold restoreSubscriptions. revert k.
  apply (map_fold_weak_ind (λ r (m : gmap string SubscriptionData), ∀ k,
    r !! k = match m !! k with
             | Some d => Some (restored_subscription d)
             | None => subs !! k
             end)).
  - intros k. by rewrite lookup_empty.
  - intros i x m r Hi IH k. destruct (decide (i = k)) as [->|Hik].
    + by rewrite !lookup_insert_eq.
    + rewrite !lookup_insert_ne by done. apply IH.
Qed.

Lemma rebuildIndex_spec subs index :
  index_no_empty index →
  index_no_empty (rebuildIndex subs index)
  ∧ ∀ a o, o ∈ devicesAt (rebuildIndex subs index) a
           ↔ o ∈ devicesAt index a
             ∨ ∃ s, subs !! o = Some s ∧ a ∈ addresses s.
Proof.
  intros Hne. unfold rebuildIndex.
  apply (map_fold_weak_ind (λ r (m : gmap string Subscription),
    index_no_empty r
    ∧ ∀ a o, o ∈ devicesAt r a
             ↔ o ∈ devicesAt index a ∨ ∃ s, m !! o = Some s ∧ a ∈ addresses s)).
  - split; [done|]. intros a o. split; [by left|].
    intros [?|(s & Hs & _)]; [done|]. by rewrite lookup_empty in Hs.
  - intros i x m r Hi [IHne IH]. split; [by apply addDevice_fold_no_empty|].
    intros a o. rewrite elem_of_addDevice_fold, IH. split.
    + intros [[?|(s & Hs & Ha)]|[Ha ->]].
      * by left.
      * right. exists s. split; [|done].
        rewrite lookup_insert_ne; [done|]. intros ->. by rewrite Hi in Hs.
      * right. exists x. by rewrite lookup_insert_eq.
    + intros [?|(s & Hs & Ha)]; [by left; left|].
      destruct (decide (i = o)) as [->|Hio].
      * rewrite lookup_insert_eq in Hs. injection Hs as ->. by right.
      * rewrite lookup_insert_ne in Hs by done. left. right. by exists s.
Qed.

(** Two indexes without empty entries that hold the same devices at every
    address are the same map. *)
Lemma index_ext (index1 index2 : gmap string (gset string)) :
  index_no_empty index1 → index_no_empty index2 →
  (∀ a o, o ∈ devicesAt index1 a ↔ o ∈ devicesAt index2 a) →
  index1 = index2.
Proof.
  intros Hne1 Hne2 Hsame. apply map_eq. intros a.
  specialize (Hsame a). unfold devicesAt in Hsame.
  destruct (index1 !! a) as [D1|] eqn:E1, (index2 !! a) as [D2|] eqn:E2;
    simpl in Hsame.
  - f_equal. by apply set_eq.
  - apply Hne1 in E1. exfalso. apply E1. apply set_eq. intros o.
    rewrite Hsame. set_solver.
  - apply Hne2 in E2. exfalso. apply E2. apply set_eq. intros o.
    rewrite <- Hsame. set_solver.
  - done.
Qed.

Lemma restored_subscription_data s :
  restored_subscription (subscription_data s) = s.
Proof.
  destruct s as [addrs tok created].
  unfold restored_subscription, subscription_data, Array_from. simpl.
  by rewrite list_to_set_elements_L.
Qed.

(** The round trip, for the registries that save all their subscriptions:
    those without a subscription under the device token ["__proto__"]. *)
Lemma load_save_roundtrip now st :
  consistent st →
  subscriptions st !! "__proto__" = None →
  let saved := dataFile (saveSubscriptions now st) in
  loadSubscriptions (new_service saved)
  = Normal (mkService (subscriptions st) (addressToDevices st) saved,
            LoadedFromFile (size (subscriptions st))).
Proof.
  intros [Hinv Hne] Hproto saved. unfold loadSubscriptions. simpl.
  assert (restoreSubscriptions (snapshot_of now (subscriptions st)) ∅
          = subscriptions st) as ->.
  { apply map_eq. intros k.
    rewrite restoreSubscriptions_lookup, snapshot_of_lookup, lookup_empty.
    case_decide as Hk; [by subst k|].
    destruct (subscriptions st !! k) as [s|]; simpl; [|done].
    by rewrite restored_subscription_data. }
  assert (rebuildIndex (subscriptions st) ∅ = addressToDevices st) as ->;
    [|done].
  assert (index_no_empty (∅ : gmap string (gset string))) as Hempty.
  { intros a devices. by rewrite lookup_empty. }
  destruct (rebuildIndex_spec (subscriptions st) ∅ Hempty) as [Hne' Hspec].
  apply index_ext; [done..|].
  intros a o. rewrite Hspec.
  specialize (Hinv a o). unfold getDevicesForAddress, subscribed in Hinv.
  unfold devicesAt at 2. rewrite Hinv. unfold devicesAt.
  rewrite lookup_empty. simpl. set_solver.
Qed.

(** C6, as amended.  [loadSubscriptions] never fails.  Without a snapshot
    file it keeps the state of the call - the empty registry at startup - and
    reports that it starts fresh; on a snapshot file that cannot be decoded it
    keeps the state of the call as well and writes the error to the console. *)
Theorem loadSubscriptions_never_fatal (st : Service) :
  (∃ st' line, loadSubscriptions st = Normal (st', line))
  ∧ loadSubscriptions (new_service None)
    = Normal (new_service None, StartingFresh)
  ∧ (∀ text, loadSubscriptions (new_service (Some (Undecodable text)))
             = Normal (new_service (Some (Undecodable text)),
                       ErrorLoading SyntaxError)).
Proof.
  split; [|split; [done|done]].
  unfold loadSubscriptions.
  destruct (dataFile st) as [[saved|text]|]; simpl; eauto.
Qed.

(** C6 as stated fails: an undecodable snapshot file is not fatal, the load
    completes normally with the empty registry. *)
Lemma loadSubscriptions_counterexample :
  let file := Some (Undecodable "{ not json") in
  loadSubscriptions (new_service file)
  = Normal (new_service file, ErrorLoading SyntaxError)
  ∧ ¬ ∃ e, loadSubscriptions (new_service file) = Throw e.
Proof.
  split; [done|]. by intros [e He].
Defined.

(** C7 at its failing input.  The route accepts the device token
    ["__proto__"]; [saveSubscriptions] then writes a snapshot without that
    device, and the registry loaded from the snapshot is empty. *)
Theorem roundtrip_loses_proto_device :
  let req :=
    mkSubscriptionRequest (Some "__proto__") (Some [UPPER_ADDRESS])
                          (Some "ExponentPushToken[x]") in
  let result :=
    subscribe toLowerCase_ascii hex64 exponent_token "t1" req empty_service in
  let st := result.1 in
  let saved := dataFile (saveSubscriptions "t2" st) in
  result.2
    = ApiResponse true "Subscription added successfully" "__proto__" (Some 1)
  ∧ subscriptions st !! "__proto__"
    = Some (mkSubscription {[toLowerCase_ascii UPPER_ADDRESS]}
                           (Some "ExponentPushToken[x]") "t1")
  ∧ getDevicesForAddress (toLowerCase_ascii UPPER_ADDRESS) st
    = {["__proto__"]}
  ∧ saved = Some (Snapshot (mkSavedSubscriptions ∅ "t2"))
  ∧ loadSubscriptions (new_service saved)
    = Normal (new_service saved, LoadedFromFile 0).
Proof.
  split; [|split; [|split; [|split]]]; vm_compute; reflexivity.
Qed.

(** ** The [/subscribe] route *)

Lemma one_address_consistent : consistent one_address.
Proof. apply run_consistent, empty_service_invariant. Qed.

Section RouteClaims.

Variable toLowerCase : string → string.
Variable isShardusAddress : string → bool.
Variable isExpoPushToken : string → bool.

(** C9, as amended.  A subscribe request with a non-empty device token
    whose addresses all pass the address check and include the all-zero
    address is answered with success and removes the subscription of the
    device, whatever push token the registry stores for it and whatever
    push token, if any, the request carries; afterwards the device has no
    subscription and, in a registry whose index is the inverse of its
    subscriptions, no address resolves to it. *)
Theorem sentinel_unsubscribe (now : string) (req : SubscriptionRequest)
    (st : Service) (deviceToken : string) (addrs : list string) :
  req_deviceToken req = Some deviceToken →
  deviceToken ≠ EmptyString →
  req_addresses req = Some addrs →
  forallb isShardusAddress addrs = true →
  DUMMY_ADDRESS ∈ addrs →
  let result :=
    subscribe toLowerCase isShardusAddress isExpoPushToken now req st in
  result.2 = ApiResponse true "Subscription removed successfully"
                         deviceToken None
  ∧ result.1 = removeSubscription now deviceToken st
  ∧ subscriptions result.1 !! deviceToken = None
  ∧ (consistent st → ∀ a, deviceToken ∉ getDevicesForAddress a result.1).
Proof.
  intros Hd Hne Haddrs Hvalid Hdummy result.
  assert (result = (removeSubscription now deviceToken st,
                    ApiResponse true "Subscription removed successfully"
                                deviceToken None)) as ->.
  { unfold result, subscribe. rewrite Hd, Haddrs. simpl.
    rewrite bool_decide_eq_false_2 by done.
    destruct addrs as [|a addrs]; [by apply elem_of_nil in Hdummy|].
    rewrite Hvalid. simpl. by rewrite bool_decide_eq_true_2. }
  simpl. split; [done|split; [done|split]].
  - rewrite removeSubscription_subscriptions. apply lookup_delete_eq.
  - intros Hc a. rewrite elem_of_getDevices_removeSubscription by done.
    naive_solver.
Qed.

End RouteClaims.

Lemma sentinel_unsubscribe_witness :
  let req :=
    mkSubscriptionRequest (Some "dev1") (Some [DUMMY_ADDRESS]) None in
  let result :=
    subscribe toLowerCase_ascii hex64 exponent_token "t2" req one_address in
  result.2 = ApiResponse true "Subscription removed successfully" "dev1" None
  ∧ result.1 = removeSubscription "t2" "dev1" one_address
  ∧ subscriptions result.1 !! "dev1" = None
  ∧ (consistent one_address →
     ∀ a, "dev1" ∉ getDevicesForAddress a result.1).
Proof.
  apply (sentinel_unsubscribe toLowerCase_ascii hex64 exponent_token "t2"
           (mkSubscriptionRequest (Some "dev1") (Some [DUMMY_ADDRESS]) None)
           one_address "dev1" [DUMMY_ADDRESS]).
  - reflexivity.
  - done.
  - reflexivity.
  - vm_compute. reflexivity.
  - apply list_elem_of_here.
Defined.

(** C9 as stated fails on a request that carries the all-zero address next to
    an address of another format, and on one without a device token: both are
    answered with status 400 and the registry keeps the subscription. *)
Lemma sentinel_unsubscribe_counterexample :
  let addrs := [DUMMY_ADDRESS; "not-an-address"] in
  let req :=
    mkSubscriptionRequest (Some "dev1") (Some addrs)
                          (Some "ExponentPushToken[x]") in
  let anonymous :=
    mkSubscriptionRequest None (Some [DUMMY_ADDRESS])
                          (Some "ExponentPushToken[x]") in
  DUMMY_ADDRESS ∈ addrs
  ∧ subscribe toLowerCase_ascii hex64 exponent_token "t2" req one_address
    = (one_address,
       ErrorResponse 400 "Invalid address format, expected shardus address"
                     "INVALID_ADDRESS")
  ∧ subscribe toLowerCase_ascii hex64 exponent_token "t2" anonymous
              one_address
    = (one_address,
       ErrorResponse 400 "Device token is required" "MISSING_DEVICE_TOKEN")
  ∧ is_Some (subscriptions one_address !! "dev1")
  ∧ getDevicesForAddress (toLowerCase_ascii UPPER_ADDRESS) one_address
    = {["dev1"]}.
Proof.
  split; [apply list_elem_of_here|].
  split; [vm_compute; reflexivity|].
  split; [vm_compute; reflexivity|].
  split; [|vm_compute; reflexivity].
  eexists. vm_compute. reflexivity.
Defined.

(** ** The collector client *)

Module CollectorClaims.
Import Collector.

(** C3 at its failing input, which is any frame that [JSON.parse] rejects:
    the exception leaves the [message] listener, the handler is not called,
    and no later event is handled. *)
Theorem malformed_frame_throws (c : CollectorSubscriber) (text : string)
    (trace : list happening) :
  on_message (MalformedText text) c = Throw SyntaxError
  ∧ step (Message (MalformedText text)) c = Throw SyntaxError
  ∧ run (Message (MalformedText text) :: trace) c = Throw SyntaxError.
Proof. done. Qed.

(** A frame that decodes is handed to the registered handler. *)
Lemma envelope_frame_delivered c message handler :
  dataHandler c = Some handler →
  handler message = Normal () →
  verbose (config c) = false →
  on_message (EnvelopeText message) c = Normal [CallHandler message].
Proof.
  intros Hh Hok Hv. unfold on_message, handleMessage. simpl.
  by rewrite Hh, Hv, Hok.
Qed.

(** With the callback of the entry point registered, a frame that decodes
    never makes the listener throw, whatever its payload: the only exception
    the listener lets through is the one of its own [JSON.parse]. *)
Lemma entry_point_frame_handled (AppReceiptData : Type)
    (safeJsonParse : string → completion AppReceiptData) c message :
  dataHandler c = Some (entry_point_handler AppReceiptData safeJsonParse) →
  ∃ out, on_message (EnvelopeText message) c = Normal out.
Proof.
  intros Hh. unfold on_message, handleMessage. simpl. rewrite Hh.
  unfold entry_point_handler. case_decide; [|simpl; eauto].
  destruct (safeJsonParse (data message)); simpl; eauto.
Qed.

Lemma scheduled_app out out' :
  scheduled (out ++ out') = scheduled out + scheduled out'.
Proof.
  unfold scheduled. by rewrite List.filter_app, List.length_app.
Qed.

Lemma connect_budget c :
  config (connect c).1 = config c
  ∧ reconnectAttempts (connect c).1 = reconnectAttempts c
  ∧ scheduled (connect c).2 = 0.
Proof.
  unfold connect. simpl. by destruct (verbose (config c)).
Qed.

Lemma attemptReconnect_budget c :
  config (attemptReconnect c).1 = config c
  ∧ reconnectAttempts (attemptReconnect c).1
    = reconnectAttempts c + scheduled (attemptReconnect c).2
  ∧ sockets_made (attemptReconnect c).2 = 0
  ∧ ws (attemptReconnect c).1 = ws c
  ∧ (scheduled (attemptReconnect c).2 = 0
     ∨ scheduled (attemptReconnect c).2 = 1
       ∧ (Z.of_nat (reconnectAttempts c)
          < maxReconnectAttempts (config c))%Z).
Proof.
  unfold attemptReconnect.
  destruct (maxReconnectAttempts (config c)
            <=? Z.of_nat (reconnectAttempts c))%Z
    eqn:E, (isReconnecting c); unfold scheduled, sockets_made; simpl;
    try (split; [done|]; split; [lia|]; split; [done|]; split; [done|];
         by left).
  apply Z.leb_gt in E. split; [done|]. split; [lia|]. split; [done|].
  split; [done|]. by right.
Qed.

(** While the in-flight flag is set and the budget is not used up, a [close]
    event only drops the socket: nothing is scheduled and nothing is logged
    but the closure. *)
Lemma close_while_reconnecting code reason c :
  isReconnecting c = true →
  (Z.of_nat (reconnectAttempts c) < maxReconnectAttempts (config c))%Z →
  on_close code reason c
  = (mkSubscriber None (reconnectAttempts c) true (config c) (dataHandler c),
     [LogClosed code reason]).
Proof.
  intros Hflag Hlt. unfold on_close, attemptReconnect. simpl.
  rewrite Hflag. simpl.
  by rewrite (proj2 (Z.leb_gt _ _) Hlt).
Qed.

(** What [handleMessage] does to the outside schedules nothing and makes no
    socket. *)
Lemma on_message_quiet frame c out :
  on_message frame c = Normal out →
  scheduled out = 0 ∧ sockets_made out = 0.
Proof.
  unfold on_message, handleMessage. intros E.
  destruct (JSON_parse frame) as [m|]; simpl in E; [|done].
  destruct (dataHandler c) as [handler|].
  - destruct (handler m); simpl in E; [|done]. injection E as <-.
    by destruct (verbose (config c)).
  - injection E as <-. by destruct (verbose (config c)).
Qed.

(** One happening other than [open] keeps the configuration, and raises the
    attempt counter by the reconnects it schedules: one at most, and only
    with the counter below the maximum. *)
Lemma step_budget h c c' out :
  h ≠ Open →
  step h c = Normal (c', out) →
  config c' = config c
  ∧ reconnectAttempts c' = reconnectAttempts c + scheduled out
  ∧ (scheduled out = 0
     ∨ scheduled out = 1
       ∧ (Z.of_nat (reconnectAttempts c)
          < maxReconnectAttempts (config c))%Z).
Proof.
  intros Hopen Hstep. destruct h; cbn [step] in Hstep; [done|..].
  - destruct (on_message frame c) as [out0|] eqn:E; simpl in Hstep; [|done].
    injection Hstep as <- <-.
    apply on_message_quiet in E as [-> _]. by rewrite Nat.add_0_r; auto.
  - assert (on_close code reason c = (c', out)) as Hc by congruence.
    unfold on_close in Hc.
    pose proof (attemptReconnect_budget
      (mkSubscriber None (reconnectAttempts c) (isReconnecting c)
                    (config c) (dataHandler c))) as Hb.
    destruct (attemptReconnect _) as [c'' out'']. simpl in Hb.
    injection Hc as <- <-. destruct Hb as (? & ? & _ & _ & ?). done.
  - assert (on_error c = (c', out)) as Hc by congruence.
    unfold on_error in Hc.
    destruct (ws c); injection Hc as <- <-; simpl;
      rewrite Nat.add_0_r; auto.
  - assert (connect c = (c', out)) as Hc by congruence.
    pose proof (connect_budget c) as Hb. rewrite Hc in Hb. simpl in Hb.
    destruct Hb as (-> & -> & ->). rewrite Nat.add_0_r; auto.
  - assert (connect c = (c', out)) as Hc by congruence.
    pose proof (connect_budget c) as Hb. rewrite Hc in Hb. simpl in Hb.
    destruct Hb as (-> & -> & ->). rewrite Nat.add_0_r; auto.
  - assert (disconnect c = (c', out)) as Hc by congruence.
    unfold disconnect in Hc.
    destruct (ws c); injection Hc as <- <-; simpl;
      rewrite Nat.add_0_r; auto.
Qed.

(** Between two [open] events the client schedules at most what is left of
    its budget. *)
Lemma run_budget trace c c' out :
  Open ∉ trace →
  run trace c = Normal (c', out) →
  (scheduled out
   ≤ Z.to_nat (maxReconnectAttempts (config c)
               - Z.of_nat (reconnectAttempts c)))%nat.
Proof.
  revert c c' out.
  induction trace as [|h trace IH]; intros c c' out Hopen Hrun;
    simpl in Hrun.
  - injection Hrun as <- <-. unfold scheduled. simpl. lia.
  - apply not_elem_of_cons in Hopen as [Hh Hopen].
    destruct (step h c) as [[c1 out1]|] eqn:Hstep; simpl in Hrun; [|done].
    destruct (run trace c1) as [[c2 out2]|] eqn:Hrest; simpl in Hrun;
      [|done].
    injection Hrun as <- <-.
    apply step_budget in Hstep as (Hcfg & Hatt & Hsched); [|done].
    apply IH in Hrest; [|done]. rewrite scheduled_app.
    rewrite Hcfg, Hatt in Hrest. lia.
Qed.

Lemma sockets_made_app out out' :
  sockets_made (out ++ out') = sockets_made out + sockets_made out'.
Proof.
  unfold sockets_made. by rewrite List.filter_app, List.length_app.
Qed.

(** A client without a socket keeps none, and makes none, as long as neither
    the reconnect timer runs nor [connect] is called. *)
Lemma step_no_socket h c c' out :
  h ≠ Timer → h ≠ CallConnect →
  ws c = None →
  step h c = Normal (c', out) →
  ws c' = None ∧ sockets_made out = 0.
Proof.
  intros Htimer Hconnect Hws Hstep.
  destruct h; cbn [step] in Hstep; try done.
  - by injection Hstep as <- <-.
  - destruct (on_message frame c) as [out0|] eqn:E; simpl in Hstep; [|done].
    injection Hstep as <- <-. by apply on_message_quiet in E as [_ ->].
  - assert (on_close code reason c = (c', out)) as Hc by congruence.
    unfold on_close in Hc.
    pose proof (attemptReconnect_budget
      (mkSubscriber None (reconnectAttempts c) (isReconnecting c)
                    (config c) (dataHandler c))) as Hb.
    destruct (attemptReconnect _) as [c'' out'']. simpl in Hb.
    injection Hc as <- <-. by destruct Hb as (_ & _ & ? & ? & _).
  - assert (on_error c = (c', out)) as Hc by congruence.
    unfold on_error in Hc. rewrite Hws in Hc. by injection Hc as <- <-.
  - assert (disconnect c = (c', out)) as Hc by congruence.
    unfold disconnect in Hc. rewrite Hws in Hc. by injection Hc as <- <-.
Qed.

Lemma run_no_socket trace c c' out :
  Timer ∉ trace → CallConnect ∉ trace →
  ws c = None →
  run trace c = Normal (c', out) →
  ws c' = None ∧ sockets_made out = 0.
Proof.
  revert c c' out.
  induction trace as [|h trace IH]; intros c c' out Htimer Hconnect Hws Hrun;
    simpl in Hrun.
  - by injection Hrun as <- <-.
  - apply not_elem_of_cons in Htimer as [Hh1 Htimer].
    apply not_elem_of_cons in Hconnect as [Hh2 Hconnect].
    destruct (step h c) as [[c1 out1]|] eqn:Hstep; simpl in Hrun; [|done].
    destruct (run trace c1) as [[c2 out2]|] eqn:Hrest; simpl in Hrun;
      [|done].
    injection Hrun as <- <-.
    apply step_no_socket in Hstep as [Hws1 Hout1]; [|done..].
    apply IH in Hrest as [Hws2 Hout2]; [|done..].
    by rewrite sockets_made_app, Hout1, Hout2.
Qed.

(** C8.  For a client with a maximum of two attempts whose counter is zero
    and whose in-flight flag is clear, three [close] events in a row, the
    second and the third being those of the sockets that the two reconnect
    timers made and that failed to connect: attempts 1 and 2 are announced
    and scheduled and no other; the third [close] logs the terminal failure
    and schedules nothing.  The client is then disconnected for good: it has
    no socket, both timers it set have run, nothing is scheduled afterwards
    before an [open], and whatever else is delivered to it, it makes no
    socket unless [connect] is called anew.  In general a client schedules
    no more reconnects between two [open] events than its maximum less its
    counter; the [open] listener sets the counter to zero and clears the
    flag, so that after an [open] no more than the maximum are scheduled
    before the next. *)
Theorem reconnect_budget (c : CollectorSubscriber)
    (code1 code2 code3 : nat) (reason1 reason2 reason3 : string) :
  maxReconnectAttempts (config c) = 2%Z →
  reconnectAttempts c = 0 →
  isReconnecting c = false →
  (∃ c2 out2 c3,
     run [Close code1 reason1; Timer; Error;
          Close code2 reason2; Timer; Error] c
     = Normal (c2, out2)
     ∧ attempts_announced out2 = [1; 2]
     ∧ scheduled out2 = 2
     ∧ gave_up out2 = false
     ∧ step (Close code3 reason3) c2
       = Normal (c3, [LogClosed code3 reason3; LogGivingUp])
     ∧ ws c3 = None
     ∧ reconnectAttempts c3 = 2
     ∧ (∀ trace c4 out4, Open ∉ trace →
          run trace c3 = Normal (c4, out4) → scheduled out4 = 0)
     ∧ (∀ trace c4 out4, Timer ∉ trace → CallConnect ∉ trace →
          run trace c3 = Normal (c4, out4) →
          ws c4 = None ∧ sockets_made out4 = 0))
  ∧ (∀ trace (c0 c' : CollectorSubscriber) out, Open ∉ trace →
       run trace c0 = Normal (c', out) →
       (scheduled out
        ≤ Z.to_nat (maxReconnectAttempts (config c0)
                    - Z.of_nat (reconnectAttempts c0)))%nat)
  ∧ (∀ c0, reconnectAttempts (on_open c0).1 = 0
           ∧ isReconnecting (on_open c0).1 = false
           ∧ ∀ trace c' out, Open ∉ trace →
               run trace (on_open c0).1 = Normal (c', out) →
               (scheduled out
                ≤ Z.to_nat (maxReconnectAttempts (config c0)))%nat).
Proof.
  intros Hmax Hatt Hflag. split; [|split].
  - destruct c as [sock attempts flag [h p delay maximum v] handler].
    simpl in *. subst.
    eexists _, _, _. split; [reflexivity|].
    split; [by destruct v|]. split; [by destruct v|].
    split; [by destruct v|]. split; [reflexivity|].
    split; [done|]. split; [done|]. split.
    + intros trace c4 out4 Hopen Hrun.
      apply run_budget in Hrun; [|done]. simpl in Hrun. lia.
    + intros trace c4 out4 Htimer Hconnect Hrun.
      by apply run_no_socket in Hrun.
  - intros trace c0 c' out. apply run_budget.
  - intros c0. split; [done|]. split; [done|].
    intros trace c' out Hopen Hrun.
    apply run_budget in Hrun; [|done]. simpl in Hrun. lia.
Qed.

Lemma reconnect_budget_witness :
  (maxReconnectAttempts (config budget_of_two) = 2%Z
   ∧ reconnectAttempts budget_of_two = 0
   ∧ isReconnecting budget_of_two = false)
  ∧ (∃ c2 out2 c3,
       run [lost; Timer; Error; lost; Timer; Error] budget_of_two
       = Normal (c2, out2)
       ∧ attempts_announced out2 = [1; 2]
       ∧ scheduled out2 = 2
       ∧ gave_up out2 = false
       ∧ step lost c2 = Normal (c3, [LogClosed 1006 EmptyString; LogGivingUp])
       ∧ ws c3 = None
       ∧ reconnectAttempts c3 = 2
       ∧ (∀ trace c4 out4, Open ∉ trace →
            run trace c3 = Normal (c4, out4) → scheduled out4 = 0)
       ∧ (∀ trace c4 out4, Timer ∉ trace → CallConnect ∉ trace →
            run trace c3 = Normal (c4, out4) →
            ws c4 = None ∧ sockets_made out4 = 0))
  ∧ (∀ trace (c0 c' : CollectorSubscriber) out, Open ∉ trace →
       run trace c0 = Normal (c', out) →
       (scheduled out
        ≤ Z.to_nat (maxReconnectAttempts (config c0)
                    - Z.of_nat (reconnectAttempts c0)))%nat)
  ∧ (∀ c0, reconnectAttempts (on_open c0).1 = 0
           ∧ isReconnecting (on_open c0).1 = false
           ∧ ∀ trace c' out, Open ∉ trace →
               run trace (on_open c0).1 = Normal (c', out) →
               (scheduled out
                ≤ Z.to_nat (maxReconnectAttempts (config c0)))%nat).
Proof.
  split; [split; [reflexivity|split; reflexivity]|].
  apply (reconnect_budget budget_of_two 1006 1006 1006 EmptyString
           EmptyString EmptyString); reflexivity.
Defined.

End CollectorClaims.

(** ** Further properties of the registry *)

Section RegistryMore.

Variable toLowerCase : string → string.

(** A subscription that [unlinkDevice] leaves in place keeps its push token
    and its creation time, and holds no new address. *)
Lemma stripped_Some d a tok o sub s' :
  stripped d a tok o sub = Some s' →
  ∃ s, sub = Some s ∧ expoPushToken s' = expoPushToken s
       ∧ createdAt s' = createdAt s ∧ addresses s' ⊆ addresses s.
Proof.
  unfold stripped. destruct sub as [s|]; [|done].
  case_decide; [case_decide; [done|]|]; intros [= <-]; exists s; simpl;
    repeat split; set_solver.
Qed.

(** One address of the request, in a registry whose index is the inverse of
    its subscriptions. *)
Lemma unlinkOldDevices_cons d a addrs tok st :
  unlinkOldDevices toLowerCase d (a :: addrs) tok st
  = unlinkOldDevices toLowerCase d addrs tok
      (unlinkOldDevices toLowerCase d [a] tok st).
Proof. done. Qed.

Lemma unlinkOldDevices_single_subscribed d a tok st o a' :
  consistent st →
  subscribed (unlinkOldDevices toLowerCase d [a] tok st) o a'
  ↔ subscribed st o a'
    ∧ ¬ (o ≠ d ∧ pushTokenOf st o = Some tok ∧ a' = toLowerCase a).
Proof.
  intros [Hinv _]. unfold subscribed at 1.
  rewrite unlinkOldDevices_single.
  specialize (Hinv (toLowerCase a) o). unfold subscribed in Hinv.
  unfold subscribed, pushTokenOf.
  case_decide as HoE.
  - apply Hinv in HoE as (s & Hs & Ha). rewrite Hs. simpl. unfold stripped.
    case_decide as Hm.
    + destruct Hm as [Hod Htok]. case_decide as Hsz.
      * apply size_empty_iff in Hsz. split; [by intros (? & [=] & _)|].
        intros [(s' & [= <-] & Ha') Hn]. exfalso. apply Hn.
        repeat split; [done..|]. set_solver.
      * split.
        -- intros (s' & [= <-] & Ha'). simpl in Ha'. split; [|set_solver].
           exists s. split; [done|]. set_solver.
        -- intros [(s' & [= <-] & Ha') Hn]. eexists. split; [done|]. simpl.
           apply elem_of_difference. split; [done|].
           rewrite elem_of_singleton. naive_solver.
    + split; [|naive_solver]. intros (s' & [= <-] & Ha').
      split; [by exists s|]. naive_solver.
  - split; [|naive_solver]. intros (s & Hs & Ha'). split; [by exists s|].
    intros (_ & _ & ->). apply HoE, Hinv. by exists s.
Qed.

Lemma unlinkOldDevices_single_kept d a tok st o s' :
  subscriptions (unlinkOldDevices toLowerCase d [a] tok st) !! o = Some s' →
  ∃ s, subscriptions st !! o = Some s ∧ expoPushToken s' = expoPushToken s
       ∧ createdAt s' = createdAt s ∧ addresses s' ⊆ addresses s.
Proof.
  rewrite unlinkOldDevices_single. case_decide.
  - apply stripped_Some.
  - intros Hs. exists s'. by repeat split.
Qed.

(** A subscription that survives [unlinkOldDevices] keeps its push token and
    its creation time, and holds no new address. *)
Lemma unlinkOldDevices_kept d addrs tok st o s' :
  subscriptions (unlinkOldDevices toLowerCase d addrs tok st) !! o = Some s' →
  ∃ s, subscriptions st !! o = Some s ∧ expoPushToken s' = expoPushToken s
       ∧ createdAt s' = createdAt s ∧ addresses s' ⊆ addresses s.
Proof.
  revert st. induction addrs as [|a addrs IH]; intros st.
  - intros Hs. exists s'. by repeat split.
  - rewrite unlinkOldDevices_cons. intros Hs.
    apply IH in Hs as (s1 & Hs1 & Htok1 & Hat1 & Hsub1).
    apply unlinkOldDevices_single_kept in Hs1 as (s & Hs & Htok & Hat & Hsub).
    exists s. repeat split; [done|congruence..|set_solver].
Qed.

(** What [unlinkOldDevices] does to the registry, for any list of addresses:
    every device other than the subscriber that carries the incoming push
    token loses the addresses of the request, and nothing else changes hands. *)
Lemma unlinkOldDevices_subscribed d addrs tok st o a :
  consistent st →
  subscribed (unlinkOldDevices toLowerCase d addrs tok st) o a
  ↔ subscribed st o a
    ∧ ¬ (o ≠ d ∧ pushTokenOf st o = Some tok ∧ a ∈ toLowerCase <$> addrs).
Proof.
  revert st. induction addrs as [|a0 addrs IH]; intros st Hc.
  - simpl. split; [|naive_solver]. intros Hs. split; [done|].
    intros (_ & _ & Hin). by apply elem_of_nil in Hin.
  - rewrite unlinkOldDevices_cons.
    rewrite IH by (by apply unlinkOldDevices_consistent).
    rewrite unlinkOldDevices_single_subscribed by done.
    rewrite fmap_cons, elem_of_cons. split.
    + intros [[Hs Hn1] Hn2]. split; [done|].
      intros (Hod & Htok & [->|Hin]); [by apply Hn1|].
      apply Hn2. repeat split; [done| |done].
      assert (subscribed (unlinkOldDevices toLowerCase d [a0] tok st) o a)
        as (s1 & Hs1 & _).
      { apply unlinkOldDevices_single_subscribed; [done|]. split; [done|].
        intros (_ & _ & ->). apply Hn1. by repeat split. }
      unfold pushTokenOf. rewrite Hs1. simpl.
      apply unlinkOldDevices_single_kept in Hs1 as (s & Hs0 & Htk & _).
      unfold pushTokenOf in Htok. rewrite Hs0 in Htok. simpl in Htok.
      congruence.
    + intros [Hs Hn]. split; [split; [done|]|].
      * intros (Hod & Htok & ->). apply Hn. repeat split; [done..|by left].
      * intros (Hod & Htok & Hin). apply Hn. repeat split; [done| |by right].
        unfold pushTokenOf in Htok.
        destruct (subscriptions (unlinkOldDevices toLowerCase d [a0] tok st)
                    !! o) as [s1|] eqn:Hs1; [|done].
        simpl in Htok.
        apply unlinkOldDevices_single_kept in Hs1 as (s & Hs0 & Htk & _).
        unfold pushTokenOf. rewrite Hs0. simpl. congruence.
Qed.

Lemma pushTokenOf_addSubscription_other now d addrs tok st o t :
  o ≠ d →
  pushTokenOf (addSubscription toLowerCase now d addrs tok st) o = Some t →
  pushTokenOf st o = Some t.
Proof.
  intros Hod. unfold pushTokenOf at 1.
  rewrite addSubscription_subscriptions, decide_False by done.
  destruct (subscriptions (unlinkOldDevices toLowerCase d addrs tok st) !! o)
    as [s'|] eqn:Hs'; [|done].
  simpl. intros Ht.
  apply unlinkOldDevices_kept in Hs' as (s & Hs & Htok & _).
  unfold pushTokenOf. rewrite Hs. simpl. congruence.
Qed.

(** X1.  Which devices an address resolves to after [addSubscription], for
    any list of addresses, in a registry whose index is the inverse of its
    subscriptions: the subscriber at the normalized addresses of the request,
    and at every address the devices that held it before, less the
    subscriber and less, at an address of the request, the devices that carry
    the incoming push token. *)
Theorem addSubscription_takes_over (now d : string) (addrs : list string)
    (tok : string) (st : Service) (a o : string) :
  consistent st →
  o ∈ getDevicesForAddress a (addSubscription toLowerCase now d addrs tok st)
  ↔ (o = d ∧ a ∈ toLowerCase <$> addrs)
    ∨ (o ≠ d ∧ o ∈ getDevicesForAddress a st
       ∧ ¬ (pushTokenOf st o = Some tok ∧ a ∈ toLowerCase <$> addrs)).
Proof.
  intros Hc. rewrite elem_of_getDevices_addSubscription by done.
  pose proof (unlinkOldDevices_consistent toLowerCase d addrs tok st Hc)
    as [Hinv' _].
  rewrite (Hinv' a o), unlinkOldDevices_subscribed by done.
  destruct Hc as [Hinv _]. rewrite <- (Hinv a o). naive_solver.
Qed.

(** X2.  [addSubscription] leaves alone every other device that does not
    carry the incoming push token: its subscription is the same record
    afterwards, in any registry. *)
Theorem addSubscription_other_token_untouched (now d : string)
    (addrs : list string) (tok : string) (st : Service) (o : string) :
  o ≠ d →
  pushTokenOf st o ≠ Some tok →
  subscriptions (addSubscription toLowerCase now d addrs tok st) !! o
  = subscriptions st !! o.
Proof.
  intros Hod Htok. rewrite addSubscription_subscriptions.
  rewrite decide_False by done.
  apply (unlinkOldDevices_preserves toLowerCase
           (λ r, subscriptions r !! o = subscriptions st !! o)); [|done].
  intros a o' r Hr. rewrite unlinkDevice_subscriptions.
  case_decide as Ho; [|done]. subst o'. rewrite Hr. unfold stripped.
  unfold pushTokenOf in Htok.
  destruct (subscriptions st !! o) as [s|]; [|done]. simpl in Htok.
  rewrite decide_False; [done|]. naive_solver.
Qed.

Lemma addSubscription_token_exclusive now d addrs tok st :
  consistent st → token_exclusive st →
  token_exclusive (addSubscription toLowerCase now d addrs tok st).
Proof.
  intros Hc Hex d1 d2 a t Hne H1 H2 Ht1 Ht2.
  pose proof (addSubscription_consistent toLowerCase now d addrs tok st Hc)
    as [Hinv' _].
  apply Hinv', addSubscription_takes_over in H1; [|done].
  apply Hinv', addSubscription_takes_over in H2; [|done].
  assert (pushTokenOf (addSubscription toLowerCase now d addrs tok st) d
          = Some tok) as Hd.
  { unfold pushTokenOf. rewrite addSubscription_subscriptions.
    by rewrite decide_True. }
  destruct Hc as [Hinv _].
  destruct H1 as [[-> Ha1]|(Hd1 & Hin1 & Hn1)],
           H2 as [[-> Ha2]|(Hd2 & Hin2 & Hn2)]; [done|..].
  - rewrite Hd in Ht1. injection Ht1 as <-.
    apply pushTokenOf_addSubscription_other in Ht2; [|done]. naive_solver.
  - rewrite Hd in Ht2. injection Ht2 as <-.
    apply pushTokenOf_addSubscription_other in Ht1; [|done]. naive_solver.
  - apply pushTokenOf_addSubscription_other in Ht1, Ht2; [|done..].
    apply Hinv in Hin1, Hin2. by eapply (Hex d1 d2).
Qed.

Lemma removeSubscription_token_exclusive now d st :
  token_exclusive st → token_exclusive (removeSubscription now d st).
Proof.
  intros Hex d1 d2 a t Hne (s1 & Hs1 & Ha1) (s2 & Hs2 & Ha2) Ht1 Ht2.
  unfold pushTokenOf in Ht1, Ht2.
  rewrite removeSubscription_subscriptions in *.
  apply lookup_delete_Some in Hs1 as [? Hs1], Hs2 as [? Hs2].
  rewrite lookup_delete_ne in Ht1, Ht2 by done.
  apply (Hex d1 d2 a t); [done|by exists s1|by exists s2|done..].
Qed.

(** X3.  After any sequence of [addSubscription] and [removeSubscription]
    calls from the empty registry, two distinct devices that carry the same
    push token never hold the same address, so an event for an address is
    never delivered twice to one push token. *)
Theorem token_exclusive_after_calls (calls : list call) :
  let st := run toLowerCase calls empty_service in
  ∀ d1 d2 a tok,
    d1 ≠ d2 →
    d1 ∈ getDevicesForAddress a st → d2 ∈ getDevicesForAddress a st →
    pushTokenOf st d1 = Some tok → pushTokenOf st d2 ≠ Some tok.
Proof.
  intros st.
  assert (consistent st ∧ token_exclusive st) as [[Hinv _] Hex].
  { unfold st, run. generalize empty_service_invariant. intros [Hc0 _].
    assert (token_exclusive empty_service) as Hex0.
    { intros d1 d2 a t _ (s & Hs & _). simpl in Hs.
      by rewrite lookup_empty in Hs. }
    revert Hc0 Hex0. generalize empty_service.
    induction calls as [|c calls IH]; intros st0 Hc0 Hex0; simpl; [done|].
    apply IH; [by apply perform_consistent|].
    destruct c; simpl.
    - by apply addSubscription_token_exclusive.
    - by apply removeSubscription_token_exclusive. }
  intros d1 d2 a tok Hne H1 H2. apply (Hex d1 d2 a tok Hne); by apply Hinv.
Qed.

(** X4.  The empty address list: [addSubscription(d, [], token)] leaves [d]
    with a subscription that holds no address - the one state in which a
    subscription with an empty address set exists - touches no other device,
    and, in a registry whose index is the inverse of its subscriptions,
    leaves [d] in no index entry. *)
Theorem addSubscription_empty_list (now d tok : string) (st : Service) :
  consistent st →
  let st' := addSubscription toLowerCase now d [] tok st in
  subscriptions st' !! d = Some (mkSubscription ∅ (Some tok) now)
  ∧ (∀ o, o ≠ d → subscriptions st' !! o = subscriptions st !! o)
  ∧ (∀ a, d ∉ getDevicesForAddress a st')
  ∧ (∀ a o, o ≠ d →
       o ∈ getDevicesForAddress a st' ↔ o ∈ getDevicesForAddress a st)
  ∧ ¬ subscriptions_no_empty (subscriptions st').
Proof.
  intros Hc st'.
  assert (subscriptions st' !! d = Some (mkSubscription ∅ (Some tok) now))
    as Hd.
  { unfold st'. rewrite addSubscription_subscriptions.
    by rewrite decide_True. }
  split; [done|]. split; [|split; [|split]].
  - intros o Ho. unfold st'. rewrite addSubscription_subscriptions.
    by rewrite decide_False.
  - intros a. unfold st'. rewrite addSubscription_takes_over by done.
    simpl. intros [[_ Hin]|[? _]]; [|done]. by apply elem_of_nil in Hin.
  - intros a o Ho. unfold st'. rewrite addSubscription_takes_over by done.
    simpl. split; [naive_solver|]. intros Hin. right.
    split; [done|]. split; [done|]. intros [_ Hnil].
    by apply elem_of_nil in Hnil.
  - intros Hno. by apply (Hno d _ Hd).
Qed.

(** A device that holds none of the addresses of the request keeps its
    subscription record through [unlinkOldDevices]. *)
Lemma unlinkOldDevices_untouched d addrs tok st o :
  consistent st →
  (∀ a, a ∈ toLowerCase <$> addrs → subscribed st o a →
        o = d ∨ pushTokenOf st o ≠ Some tok) →
  subscriptions (unlinkOldDevices toLowerCase d addrs tok st) !! o
  = subscriptions st !! o.
Proof.
  revert st. induction addrs as [|a0 addrs IH]; intros st Hc Hfree; [done|].
  rewrite unlinkOldDevices_cons.
  assert (subscriptions (unlinkOldDevices toLowerCase d [a0] tok st) !! o
          = subscriptions st !! o) as Hsame.
  { rewrite unlinkOldDevices_single. case_decide as HoE; [|done].
    destruct Hc as [Hinv _]. apply Hinv in HoE as Hsub.
    destruct (Hfree (toLowerCase a0)) as [->|Htok]; [by left|done|..].
    - destruct Hsub as (s & -> & _). unfold stripped.
      rewrite decide_False; [done|]. naive_solver.
    - destruct Hsub as (s & Hs & _). rewrite Hs. unfold stripped.
      unfold pushTokenOf in Htok. rewrite Hs in Htok. simpl in Htok.
      rewrite decide_False; [done|]. naive_solver. }
  rewrite IH; [done|by apply unlinkOldDevices_consistent|].
  intros a Ha (s & Hs & Hin). rewrite Hsame in Hs.
  unfold pushTokenOf. rewrite Hsame.
  apply (Hfree a); [by right|by exists s].
Qed.

(** X5.  Subscribing a device again with the same addresses and the same
    push token changes nothing but the creation time of its subscription:
    every other subscription and the whole index stay as the first call left
    them. *)
Theorem resubscribe_same (now now' d : string) (addrs : list string)
    (tok : string) (st : Service) :
  consistent st →
  let st1 := addSubscription toLowerCase now d addrs tok st in
  let st2 := addSubscription toLowerCase now' d addrs tok st1 in
  subscriptions st2
  = <[d := mkSubscription (list_to_set (toLowerCase <$> addrs)) (Some tok)
                          now']> (subscriptions st1)
  ∧ addressToDevices st2 = addressToDevices st1.
Proof.
  intros Hc st1 st2.
  assert (consistent st1) as Hc1 by (by apply addSubscription_consistent).
  assert (consistent st2) as Hc2 by (by apply addSubscription_consistent).
  assert (subscriptions st2
          = <[d := mkSubscription (list_to_set (toLowerCase <$> addrs))
                                  (Some tok) now']> (subscriptions st1))
    as Hsubs.
  { apply map_eq. intros o. unfold st2.
    rewrite addSubscription_subscriptions.
    case_decide as Ho; [subst o; by rewrite lookup_insert_eq|].
    rewrite lookup_insert_ne by done.
    apply unlinkOldDevices_untouched; [done|].
    intros a Ha Hsub. right. intros Htok.
    destruct Hc1 as [Hinv1 _]. apply Hinv1 in Hsub. unfold st1 in Hsub.
    apply addSubscription_takes_over in Hsub; [|done].
    destruct Hsub as [[? _]|(_ & _ & Hn)]; [done|].
    apply Hn. split; [|done].
    by apply (pushTokenOf_addSubscription_other now d addrs tok st o). }
  split; [done|].
  destruct Hc1 as [Hinv1 Hne1], Hc2 as [Hinv2 Hne2].
  apply index_ext; [done..|]. intros a o.
  specialize (Hinv1 a o). specialize (Hinv2 a o).
  unfold getDevicesForAddress in Hinv1, Hinv2. unfold devicesAt.
  rewrite Hinv1, Hinv2. unfold subscribed. rewrite Hsubs.
  destruct (decide (o = d)) as [->|Ho].
  - rewrite lookup_insert_eq. unfold st1.
    rewrite addSubscription_subscriptions, decide_True by done.
    naive_solver.
  - by rewrite lookup_insert_ne.
Qed.

(** The index of a registry is determined by its subscriptions once it is
    their inverse. *)
Lemma consistent_index_unique st1 st2 :
  consistent st1 → consistent st2 →
  subscriptions st1 = subscriptions st2 →
  addressToDevices st1 = addressToDevices st2.
Proof.
  intros [Hinv1 Hne1] [Hinv2 Hne2] Hsubs.
  apply index_ext; [done..|]. intros a o.
  specialize (Hinv1 a o). specialize (Hinv2 a o).
  unfold getDevicesForAddress in Hinv1, Hinv2. unfold devicesAt.
  rewrite Hinv1, Hinv2. unfold subscribed. by rewrite Hsubs.
Qed.

(** X6.  The order of the addresses in a request, their repetitions and
    their letter case do not matter to the registry: two address lists with
    the same normalized addresses give the same subscriptions and the same
    address index, when the registry they are applied to satisfies the
    invariants. *)
Theorem addSubscription_same_addresses (now d : string)
    (addrs1 addrs2 : list string) (tok : string) (st : Service) :
  registry_invariant st →
  (∀ a, a ∈ toLowerCase <$> addrs1 ↔ a ∈ toLowerCase <$> addrs2) →
  subscriptions (addSubscription toLowerCase now d addrs1 tok st)
  = subscriptions (addSubscription toLowerCase now d addrs2 tok st)
  ∧ addressToDevices (addSubscription toLowerCase now d addrs1 tok st)
    = addressToDevices (addSubscription toLowerCase now d addrs2 tok st).
Proof.
  intros [Hc Hno] Hsame.
  assert (list_to_set (toLowerCase <$> addrs1)
          =@{gset string} list_to_set (toLowerCase <$> addrs2)) as HL.
  { apply set_eq. intros a. by rewrite !elem_of_list_to_set. }
  set (u1 := unlinkOldDevices toLowerCase d addrs1 tok st).
  set (u2 := unlinkOldDevices toLowerCase d addrs2 tok st).
  assert (∀ o a, subscribed u1 o a ↔ subscribed u2 o a) as Hsub.
  { intros o a. unfold u1, u2.
    rewrite !unlinkOldDevices_subscribed by done. by rewrite Hsame. }
  assert (∀ v1 v2 o s1,
            (∀ o a, subscribed v1 o a ↔ subscribed v2 o a) →
            subscriptions_no_empty (subscriptions v1) →
            (∀ s', subscriptions v1 !! o = Some s' →
               ∃ s, subscriptions st !! o = Some s
                    ∧ expoPushToken s' = expoPushToken s
                    ∧ createdAt s' = createdAt s
                    ∧ addresses s' ⊆ addresses s) →
            (∀ s', subscriptions v2 !! o = Some s' →
               ∃ s, subscriptions st !! o = Some s
                    ∧ expoPushToken s' = expoPushToken s
                    ∧ createdAt s' = createdAt s
                    ∧ addresses s' ⊆ addresses s) →
            subscriptions v1 !! o = Some s1 →
            subscriptions v2 !! o = Some s1) as Hhalf.
  { intros v1 v2 o s1 Hv Hno1 Hk1 Hk2 Hs1.
    destruct (set_choose_L (addresses s1)) as [a Ha]; [by eapply Hno1|].
    assert (subscribed v2 o a) as (s2 & Hs2 & _).
    { apply Hv. by exists s1. }
    rewrite Hs2. f_equal.
    destruct (Hk1 _ Hs1) as (s & Hs & Ht1 & Hat1 & _).
    destruct (Hk2 _ Hs2) as (s' & Hs' & Ht2 & Hat2 & _).
    assert (addresses s2 = addresses s1) as Hadd.
    { apply set_eq. intros b. split; intros Hb.
      - assert (subscribed v1 o b) as (? & ? & ?);
          [apply Hv; by exists s2|by simplify_eq].
      - assert (subscribed v2 o b) as (? & ? & ?);
          [apply Hv; by exists s1|by simplify_eq]. }
    destruct s1, s2. simpl in *. simplify_eq. congruence. }
  assert (subscriptions u1 = subscriptions u2) as Hu.
  { apply map_eq. intros o.
    destruct (subscriptions u1 !! o) as [s1|] eqn:H1.
    - symmetry. apply (Hhalf u1 u2 o s1); [done| | | |done].
      + by apply unlinkOldDevices_no_empty.
      + intros s'. apply unlinkOldDevices_kept.
      + intros s'. apply unlinkOldDevices_kept.
    - destruct (subscriptions u2 !! o) as [s2|] eqn:H2; [|done].
      rewrite <- H1. apply (Hhalf u2 u1 o s2); [by symmetry| | | |done].
      + by apply unlinkOldDevices_no_empty.
      + intros s'. apply unlinkOldDevices_kept.
      + intros s'. apply unlinkOldDevices_kept. }
  assert (subscriptions (addSubscription toLowerCase now d addrs1 tok st)
          = subscriptions (addSubscription toLowerCase now d addrs2 tok st))
    as Hsubs.
  { apply map_eq. intros o. rewrite !addSubscription_subscriptions.
    fold u1 u2. by rewrite HL, Hu. }
  split; [done|].
  apply consistent_index_unique;
    [by apply addSubscription_consistent..|done].
Qed.

End RegistryMore.

(** ** Further properties of the persistence *)

(** X7.  Whatever snapshot document the file holds, [loadSubscriptions] on a
    new service restores one subscription per saved entry, with the saved
    addresses as they are written, and rebuilds an index that is the inverse
    of the restored subscriptions and has no empty entry. *)
Theorem load_rebuilds_index (saved : SavedSubscriptions) :
  ∃ st',
    loadSubscriptions (new_service (Some (Snapshot saved)))
    = Normal (st', LoadedFromFile (size (subscriptions st')))
    ∧ (∀ d, subscriptions st' !! d
            = restored_subscription <$> saved_subscriptions saved !! d)
    ∧ (∀ a d, d ∈ getDevicesForAddress a st'
              ↔ ∃ s, saved_subscriptions saved !! d = Some s
                     ∧ a ∈ data_addresses s)
    ∧ (∀ a devices, addressToDevices st' !! a = Some devices → devices ≠ ∅)
    ∧ dataFile st' = Some (Snapshot saved).
Proof.
  exists (mkService (restoreSubscriptions saved ∅)
                    (rebuildIndex (restoreSubscriptions saved ∅) ∅)
                    (Some (Snapshot saved))).
  split; [reflexivity|]. simpl.
  assert (∀ d, restoreSubscriptions saved ∅ !! d
               = restored_subscription <$> saved_subscriptions saved !! d)
    as Hsubs.
  { intros d. rewrite restoreSubscriptions_lookup, lookup_empty.
    by destruct (saved_subscriptions saved !! d). }
  assert (index_no_empty (∅ : gmap string (gset string))) as Hempty.
  { intros a devices. by rewrite lookup_empty. }
  destruct (rebuildIndex_spec (restoreSubscriptions saved ∅) ∅ Hempty)
    as [Hne Hspec].
  split; [done|]. split; [|done].
  intros a d. unfold getDevicesForAddress. simpl.
  change (default ∅ (?m !! a)) with (devicesAt m a).
  rewrite Hspec. unfold devicesAt. rewrite lookup_empty. simpl.
  setoid_rewrite Hsubs. split.
  - intros [?|(s & Hs & Ha)]; [set_solver|].
    destruct (saved_subscriptions saved !! d) as [sd|]; [|done].
    injection Hs as <-. exists sd. split; [done|]. simpl in Ha.
    by apply elem_of_list_to_set in Ha.
  - intros (sd & Hsd & Ha). right. rewrite Hsd. simpl.
    eexists. split; [done|]. simpl. by apply elem_of_list_to_set.
Qed.


Section Restart.

Variable toLowerCase : string → string.




End Restart.

(** ** Further properties of the routes *)

Lemma elem_of_all_addresses subs a :
  a ∈ all_addresses subs ↔ ∃ d s, subs !! d = Some s ∧ a ∈ addresses s.
Proof.
  unfold all_addresses.
  apply (map_fold_weak_ind (λ r (m : gmap string Subscription),
    a ∈ r ↔ ∃ d s, m !! d = Some s ∧ a ∈ addresses s)).
  - split; [set_solver|]. intros (d & s & Hs & _).
    by rewrite lookup_empty in Hs.
  - intros i x m r Hi IH. rewrite elem_of_union, IH. split.
    + intros [Ha|(d & s & Hs & Ha)].
      * exists i, x. by rewrite lookup_insert_eq.
      * exists d, s. split; [|done]. rewrite lookup_insert_ne; [done|].
        intros ->. by rewrite Hi in Hs.
    + intros (d & s & Hs & Ha). destruct (decide (i = d)) as [->|Hid].
      * rewrite lookup_insert_eq in Hs. injection Hs as ->. by left.
      * rewrite lookup_insert_ne in Hs by done. right. by exists d, s.
Qed.

Section RoutesMore.

Variable toLowerCase : string → string.
Variable isShardusAddress : string → bool.
Variable isExpoPushToken : string → bool.

(** X9.  [GET /health] after any sequence of registry calls:
    [monitoredAddresses] is the number of distinct addresses that the
    subscriptions hold, so an address that nobody subscribes to any more is
    not counted. *)
Theorem health_counts_addresses (calls : list call) :
  let st := run toLowerCase calls empty_service in
  health_monitoredAddresses (health st)
  = size (all_addresses (subscriptions st))
  ∧ health_subscriptions (health st) = size (dom (subscriptions st)).
Proof.
  intros st. simpl. split; [|by rewrite size_dom].
  destruct (run_consistent toLowerCase calls empty_service) as [Hinv Hne];
    [apply empty_service_invariant|]. fold st in Hinv, Hne.
  rewrite <- size_dom. f_equal. apply set_eq. intros a.
  rewrite elem_of_all_addresses, elem_of_dom. split.
  - intros [devices Hd].
    destruct (set_choose_L devices) as [d Hin]; [by eapply Hne|].
    assert (d ∈ getDevicesForAddress a st) as Hg.
    { unfold getDevicesForAddress. by rewrite Hd. }
    apply Hinv in Hg as (s & Hs & Ha). by exists d, s.
  - intros (d & s & Hs & Ha).
    assert (d ∈ getDevicesForAddress a st) as Hg.
    { apply Hinv. by exists s. }
    unfold getDevicesForAddress in Hg.
    destruct (addressToDevices st !! a); [done|]. set_solver.
Qed.

(** X10.  Whatever the request, an answer of [POST /subscribe] that is an
    error has status 400 and leaves the registry and the file as they were;
    an answer that is not an error reports success with one of the two
    messages. *)
Theorem subscribe_rejects_without_effect (now : string)
    (req : SubscriptionRequest) (st : Service) :
  let result :=
    subscribe toLowerCase isShardusAddress isExpoPushToken now req st in
  match result.2 with
  | ErrorResponse status _ _ => status = 400 ∧ result.1 = st
  | ApiResponse success message _ _ =>
      success = true
      ∧ (message = "Subscription added successfully"
         ∨ message = "Subscription removed successfully")
  end.
Proof.
  unfold subscribe.
  destruct (falsy (req_deviceToken req)); simpl; [done|].
  destruct (req_addresses req) as [[|a addrs]|]; simpl; [done| |done].
  destruct (isShardusAddress a && forallb isShardusAddress addrs); simpl;
    [|done].
  case_bool_decide; simpl; [by auto|].
  destruct (falsy (req_expoPushToken req)
            || negb (isExpoPushToken (default EmptyString
                                              (req_expoPushToken req))));
    simpl; by auto.
Qed.

Lemma subscribe_invariants now req st :
  registry_invariant st ∧ token_exclusive st →
  let st' :=
    (subscribe toLowerCase isShardusAddress isExpoPushToken now req st).1 in
  registry_invariant st' ∧ token_exclusive st'.
Proof.
  intros [[Hc Hno] Hex]. unfold subscribe.
  destruct (falsy (req_deviceToken req)); simpl; [done|].
  destruct (req_addresses req) as [[|a addrs]|]; simpl; [done| |done].
  destruct (isShardusAddress a && forallb isShardusAddress addrs); simpl;
    [|done].
  case_bool_decide; simpl.
  { split; [split|].
    - by apply removeSubscription_consistent.
    - by apply removeSubscription_no_empty.
    - by apply removeSubscription_token_exclusive. }
  destruct (falsy (req_expoPushToken req)
            || negb (isExpoPushToken (default EmptyString
                                              (req_expoPushToken req))));
    simpl; [done|].
  split; [split|].
  - by apply addSubscription_consistent.
  - by apply addSubscription_no_empty.
  - by apply addSubscription_token_exclusive.
Qed.

(** X11.  When [POST /subscribe] requests are served one at a time, each
    handler running to its answer before the next starts, then whatever the
    requests are, valid or not, the registry they leave satisfies every
    invariant of the data model: the index is the inverse of the
    subscriptions, no index entry and no subscription is empty, and two
    devices with one push token never hold the same address.  Requests whose
    handlers overlap at an [await] are not covered. *)
Theorem serve_keeps_invariants
    (requests : list (string * SubscriptionRequest)) :
  let st :=
    serve toLowerCase isShardusAddress isExpoPushToken requests
          empty_service in
  (∀ a d, d ∈ getDevicesForAddress a st
          ↔ ∃ s, subscriptions st !! d = Some s ∧ a ∈ addresses s)
  ∧ (∀ a devices, addressToDevices st !! a = Some devices → devices ≠ ∅)
  ∧ (∀ d s, subscriptions st !! d = Some s → addresses s ≠ ∅)
  ∧ token_exclusive st.
Proof.
  intros st.
  assert (registry_invariant st ∧ token_exclusive st)
    as [[[Hinv Hne] Hno] Hex]; [|done].
  unfold st, serve.
  assert (registry_invariant empty_service ∧ token_exclusive empty_service)
    as H0.
  { split; [apply empty_service_invariant|].
    intros d1 d2 a t _ (s & Hs & _). simpl in Hs.
    by rewrite lookup_empty in Hs. }
  revert H0. generalize empty_service.
  induction requests as [|[now req] requests IH]; intros st0 H0; simpl;
    [done|].
  apply IH. by apply subscribe_invariants.
Qed.

(** X12.  What [GET /subscription/:deviceToken] answers right after
    [POST /subscribe]: after a subscription was added, the normalized
    addresses of the request, each once, with [hasExpoPushToken] set; after a
    sentinel removal, status 404. *)
Theorem getSubscription_after_subscribe (now : string)
    (req : SubscriptionRequest) (st st' : Service) (d : string)
    (message : string) (count : option nat) :
  subscribe toLowerCase isShardusAddress isExpoPushToken now req st
  = (st', ApiResponse true message d count) →
  (message = "Subscription removed successfully" →
   getSubscription d st'
   = SubscriptionError 404 "Subscription not found" "SUBSCRIPTION_NOT_FOUND")
  ∧ (message = "Subscription added successfully" →
     ∃ addrs l,
       req_addresses req = Some addrs
       ∧ getSubscription d st' = SubscriptionInfo d l true
       ∧ NoDup l
       ∧ ∀ a, a ∈ l ↔ a ∈ toLowerCase <$> addrs).
Proof.
  unfold subscribe.
  destruct (falsy (req_deviceToken req)); simpl; [done|].
  destruct (req_addresses req) as [[|a addrs]|]; simpl; [done| |done].
  destruct (isShardusAddress a && forallb isShardusAddress addrs); simpl;
    [|done].
  case_bool_decide; simpl.
  { intros [= <- <- <- <-]. split; [|done]. intros _.
    unfold getSubscription. rewrite removeSubscription_subscriptions.
    by rewrite lookup_delete_eq. }
  destruct (req_expoPushToken req) as [tok|]; simpl; [|done].
  case_bool_decide as Htok; simpl; [done|].
  destruct (isExpoPushToken tok); simpl; [|done].
  intros [= <- <- <- <-]. split; [done|]. intros _.
  exists (a :: addrs). eexists. split; [done|].
  unfold getSubscription. rewrite addSubscription_subscriptions.
  rewrite decide_True by done. unfold hasExpoPushToken. simpl.
  rewrite bool_decide_eq_false_2 by done. simpl. split; [done|].
  unfold Array_from. split; [apply NoDup_elements|].
  intros a'. rewrite elem_of_elements.
  exact (elem_of_list_to_set (C:=gset string) a'
           (fmap (M:=list) toLowerCase (cons a addrs))).
Qed.

End RoutesMore.

(** X13.  [GET /subscriptions] lists every subscription exactly once: no
    device token is listed twice, an element is listed exactly when
    [GET /subscription/:deviceToken] answers with it, and [total] is the
    subscription count that [GET /health] reports. *)
Theorem listSubscriptions_agrees (st : Service) :
  let answer := listSubscriptions st in
  NoDup (listed_deviceToken <$> list_subscriptions answer)
  ∧ (∀ d addrs has,
       mkListed d addrs has ∈ list_subscriptions answer
       ↔ getSubscription d st = SubscriptionInfo d addrs has)
  ∧ list_total answer = health_subscriptions (health st).
Proof.
  simpl. split; [|split].
  - rewrite <- list_fmap_compose.
    change (NoDup ((map_to_list (subscriptions st)).*1)).
    apply NoDup_fst_map_to_list.
  - intros d addrs has. rewrite list_elem_of_fmap. unfold getSubscription.
    split.
    + intros ([d' s] & [= -> -> ->] & Hin). simpl.
      apply elem_of_map_to_list in Hin. by rewrite Hin.
    + destruct (subscriptions st !! d) as [s|] eqn:Hs; [|done].
      intros [= <- <-]. exists (d, s). split; [done|].
      by apply elem_of_map_to_list.
  - by rewrite length_fmap, length_map_to_list.
Qed.

(** ** Properties of the delivery *)

Module NotifierFacts.
Import Notifier.

Section ProviderFacts.

Variable Data : Type.
Variable emptyObject : Data.
Variable sendPushNotificationsAsync :
  list (ExpoPushMessage Data) → provider_outcome.
Variable serverTestData : string → Data.

#[local] Abbreviation send :=
  (sendNotification Data emptyObject sendPushNotificationsAsync).

(** X14.  [sendNotification] hands the provider at most one message, and
    only one addressed to the non-empty push token stored for the device,
    with the title and the body of the notification; it hands it nothing
    exactly when the device has no subscription or no push token.  Its
    result is a success with the first ticket only if the provider returned
    a first ticket of status [ok], and carries an error text otherwise, also
    when the provider rejects. *)
Theorem sendNotification_contract (deviceToken : string)
    (notification : NotificationPayload Data) (st : Service) :
  let sent := send deviceToken notification st in
  (sent.2 = [] ∨ ∃ m, sent.2 = [[m]])
  ∧ (∀ ms m, ms ∈ sent.2 → m ∈ ms →
       to Data m ≠ EmptyString
       ∧ pushTokenOf st deviceToken = Some (to Data m)
       ∧ message_title Data m = title Data notification
       ∧ message_body Data m = body Data notification)
  ∧ (sent.2 = []
     ↔ pushTokenOf st deviceToken = None
       ∨ pushTokenOf st deviceToken = Some EmptyString)
  ∧ (success sent.1 = true →
     ∃ m id rest,
       sent.2 = [[m]]
       ∧ sendPushNotificationsAsync [m] = Tickets (TicketOk id :: rest)
       ∧ ticket sent.1 = Some (TicketOk id) ∧ failure sent.1 = None)
  ∧ (success sent.1 = false →
     ticket sent.1 = None ∧ ∃ text, failure sent.1 = Some text).
Proof.
  unfold sendNotification, pushTokenOf.
  destruct (subscriptions st !! deviceToken) as [s|]; simpl.
  2: { split; [by left|]. split; [by intros ?? ?%elem_of_nil|].
       split; [naive_solver|]. split; [done|]. intros _. split; [done|].
       eauto. }
  destruct (expoPushToken s) as [tok|] eqn:Htok; simpl.
  2: { split; [by left|]. split; [by intros ?? ?%elem_of_nil|].
       split; [naive_solver|]. split; [done|]. intros _. split; [done|].
       eauto. }
  case_bool_decide as Hempty; simpl.
  { subst tok. split; [by left|]. split; [by intros ?? ?%elem_of_nil|].
    split; [naive_solver|]. split; [done|]. intros _. split; [done|].
    eauto. }
  split; [right; eauto|]. split.
  { intros ms m ->%list_elem_of_singleton ->%list_elem_of_singleton. done. }
  split.
  { split; [done|]. intros [?|?]; [done|]. by simplify_eq. }
  destruct (sendPushNotificationsAsync _) as [[|[id|text] rest]|text] eqn:Hp;
    simpl; (split; [try done|try done]).
  - intros _. split; [done|]. eauto.
  - intros _. eexists _, id, rest. by rewrite Hp.
  - intros _. split; [done|]. eauto.
  - intros _. split; [done|]. eauto.
Qed.

(** The loop of [sendTestNotificationToAll] over a list of entries of the
    subscriptions map. *)
Lemma broadcast_loop clock st (entries : list (string * Subscription)) acc :
  (∀ entry, entry ∈ entries → subscriptions st !! entry.1 = Some entry.2) →
  (foldl (testRound Data emptyObject sendPushNotificationsAsync
                    serverTestData clock st) acc entries.*1).1.*1
  = (acc.1.*1 ++ entries.*1)%list
  ∧ to Data <$> List.concat
      (foldl (testRound Data emptyObject sendPushNotificationsAsync
                        serverTestData clock st) acc entries.*1).2
    = ((to Data <$> List.concat acc.2)
       ++ omap (λ entry : string * Subscription,
                  if falsy (expoPushToken entry.2) then None
                  else expoPushToken entry.2) entries)%list.
Proof.
  revert acc. induction entries as [|[d s] entries IH]; intros acc Hin.
  - simpl. by rewrite !app_nil_r.
  - rewrite fmap_cons. cbn [foldl].
    destruct (IH (testRound Data emptyObject sendPushNotificationsAsync
                            serverTestData clock st acc (d, s).1))
      as [IH1 IH2].
    { intros entry He. apply Hin. by right. }
    rewrite IH1, IH2. clear IH IH1 IH2.
    unfold testRound. cbn [fst snd]. split.
    + rewrite fmap_app. simpl. by rewrite <- app_assoc.
    + rewrite List.concat_app, fmap_app, <- app_assoc. f_equal.
      unfold sendNotification.
      pose proof (Hin (d, s) ltac:(by left)) as Hs. simpl in Hs.
      rewrite Hs. simpl.
      destruct (expoPushToken s) as [tok|]; simpl; [|done].
      by case_bool_decide.
Qed.

(** X15.  [sendTestNotificationToAll] attempts every subscribed device
    exactly once, whatever the results of the other attempts: the devices of
    its results are the device tokens of the registry, each result is the one
    [sendNotification] gives for that device alone, and the provider is
    handed one message per subscription with a non-empty push token,
    addressed to that token. *)
Theorem sendTestNotificationToAll_reaches_all (clock : string → string * string)
    (st : Service) :
  let all :=
    sendTestNotificationToAll Data emptyObject sendPushNotificationsAsync
                              serverTestData clock st in
  all.1.*1 = (map_to_list (subscriptions st)).*1
  ∧ NoDup all.1.*1
  ∧ List.length all.1 = health_subscriptions (health st)
  ∧ to Data <$> List.concat all.2 = deliverable st.
Proof.
  intros all.
  destruct (broadcast_loop clock st (map_to_list (subscriptions st))
              ([], [])) as [H1 H2].
  { intros [d s] Hin. by apply elem_of_map_to_list. }
  simpl in H1, H2. unfold all, sendTestNotificationToAll.
  split; [done|]. split; [|split; [|done]].
  - rewrite H1. apply NoDup_fst_map_to_list.
  - rewrite <- (length_fmap fst), H1, length_fmap, length_map_to_list. done.
Qed.

End ProviderFacts.

End NotifierFacts.

(** ** Further properties of the collector client *)

Module CollectorMoreFacts.
Import Collector CollectorMore.

Lemma run_app trace1 trace2 c :
  run (trace1 ++ trace2) c
  = '(c1, out1) ← run trace1 c;
    '(c2, out2) ← run trace2 c1;
    Normal (c2, (out1 ++ out2)%list).
Proof.
  revert c. induction trace1 as [|h trace1 IH]; intros c; simpl.
  - by destruct (run trace2 c) as [[c2 out2]|].
  - destruct (step h c) as [[c1 out1]|]; simpl; [|done].
    rewrite IH. destruct (run trace1 c1) as [[c2 out2]|]; simpl; [|done].
    destruct (run trace2 c2) as [[c3 out3]|]; simpl; [|done].
    by rewrite app_assoc.
Qed.

Lemma run_app_Normal trace1 trace2 c c1 out1 c2 out2 :
  run trace1 c = Normal (c1, out1) →
  run trace2 c1 = Normal (c2, out2) →
  run (trace1 ++ trace2) c = Normal (c2, (out1 ++ out2)%list).
Proof. intros H1 H2. rewrite run_app, H1. simpl. by rewrite H2. Qed.

Lemma attempts_announced_app out out' :
  attempts_announced (out ++ out')
  = (attempts_announced out ++ attempts_announced out')%list.
Proof.
  induction out as [|o out IH]; simpl; [done|].
  destruct o; simpl; by rewrite ?IH.
Qed.

Lemma gave_up_app out out' :
  gave_up (out ++ out') = gave_up out || gave_up out'.
Proof. unfold gave_up. by rewrite existsb_app. Qed.

(** One failed reconnect while a reconnect is in flight and the budget is not
    used up: the next attempt is announced and scheduled. *)
Lemma failed_reconnect_below_budget c :
  isReconnecting c = true →
  (Z.of_nat (reconnectAttempts c) < maxReconnectAttempts (config c))%Z →
  ∃ c' out,
    run failed_reconnect c = Normal (c', out)
    ∧ config c' = config c ∧ isReconnecting c' = true
    ∧ reconnectAttempts c' = S (reconnectAttempts c)
    ∧ attempts_announced out = [S (reconnectAttempts c)]
    ∧ scheduled out = 1 ∧ gave_up out = false.
Proof.
  intros Hflag Hlt.
  destruct c as [sock attempts flag [h p delay maximum v] handler].
  simpl in *. subst flag. apply Z.leb_gt in Hlt.
  unfold failed_reconnect, lost. simpl. unfold on_close, attemptReconnect.
  simpl. rewrite Hlt. simpl. eexists _, _. split; [reflexivity|].
  simpl. by destruct v.
Qed.

(** One failed reconnect with the budget used up: the terminal failure is
    logged and nothing is scheduled. *)
Lemma failed_reconnect_at_budget c :
  isReconnecting c = true →
  maxReconnectAttempts (config c) = Z.of_nat (reconnectAttempts c) →
  ∃ c' out,
    run failed_reconnect c = Normal (c', out)
    ∧ config c' = config c ∧ ws c' = None
    ∧ reconnectAttempts c' = reconnectAttempts c
    ∧ attempts_announced out = []
    ∧ scheduled out = 0 ∧ gave_up out = true.
Proof.
  intros Hflag Heq.
  destruct c as [sock attempts flag [h p delay maximum v] handler].
  simpl in *. subst flag maximum.
  unfold failed_reconnect, lost. simpl. unfold on_close, attemptReconnect.
  simpl. rewrite Z.leb_refl. simpl. eexists _, _. split; [reflexivity|].
  simpl. by destruct v.
Qed.

Lemma failures_to_the_end (left : nat) c :
  isReconnecting c = true →
  maxReconnectAttempts (config c) = Z.of_nat (reconnectAttempts c + left) →
  ∃ c' out,
    run (failures (S left)) c = Normal (c', out)
    ∧ ws c' = None
    ∧ reconnectAttempts c' = reconnectAttempts c + left
    ∧ attempts_announced out = seq (S (reconnectAttempts c)) left
    ∧ scheduled out = left ∧ gave_up out = true.
Proof.
  revert c. induction left as [|left IH]; intros c Hflag Hsum.
  - destruct (failed_reconnect_at_budget c) as (c' & out & Hrun & Hcfg & Hws
      & Hatt & Hann & Hsch & Hgu); [done|by rewrite Hsum, Nat.add_0_r|].
    exists c', out. unfold failures. simpl. rewrite ?app_nil_r.
    repeat split; try done; lia.
  - destruct (failed_reconnect_below_budget c) as (c1 & out1 & Hrun1 & Hcfg1
      & Hflag1 & Hatt1 & Hann1 & Hsch1 & Hgu1); [done|lia|].
    destruct (IH c1) as (c' & out & Hrun & Hws & Hatt & Hann & Hsch & Hgu);
      [done|rewrite Hcfg1, Hsum, Hatt1; f_equal; lia|].
    exists c', (out1 ++ out)%list.
    change (failures (S (S left)))
      with (failed_reconnect ++ failures (S left))%list.
    rewrite (run_app_Normal _ _ _ _ _ _ _ Hrun1 Hrun).
    rewrite attempts_announced_app, CollectorClaims.scheduled_app,
      gave_up_app, Hann1, Hann, Hsch1, Hsch, Hgu1, Hgu, Hatt1.
    repeat split; try done; lia.
Qed.

(** X16.  The budget is used in full: when the connection is lost and every
    reconnect fails, a client with a maximum of [m] attempts announces and
    schedules the attempts 1 to [m], one after each failure, and gives up at
    the failure of the last: the terminal failure is logged, nothing more is
    scheduled and no socket is left.  A maximum below zero counts as none. *)
Theorem failures_use_whole_budget (c : CollectorSubscriber) :
  reconnectAttempts c = 0 →
  isReconnecting c = false →
  ∃ c' out,
    run (lost :: failures (Z.to_nat (maxReconnectAttempts (config c)))) c
    = Normal (c', out)
    ∧ attempts_announced out
      = seq 1 (Z.to_nat (maxReconnectAttempts (config c)))
    ∧ scheduled out = Z.to_nat (maxReconnectAttempts (config c))
    ∧ gave_up out = true
    ∧ ws c' = None
    ∧ reconnectAttempts c' = Z.to_nat (maxReconnectAttempts (config c)).
Proof.
  intros Hatt Hflag.
  destruct c as [sock attempts flag [h p delay maximum v] handler].
  cbn [reconnectAttempts isReconnecting config maxReconnectAttempts] in *.
  subst attempts flag.
  destruct (Z.to_nat maximum) as [|left] eqn:Hm.
  - assert ((maximum <=? Z.of_nat 0)%Z = true) as Hle
      by (apply Z.leb_le; lia).
    unfold failures. simpl. unfold on_close, attemptReconnect. simpl.
    simpl in Hle. rewrite Hle. simpl.
    eexists _, _. split; [reflexivity|]. done.
  - assert (maximum = Z.of_nat (S left)) as -> by lia.
    set (c1 := mkSubscriber None 1 true
                 (mkConfig h p delay (Z.of_nat (S left)) v) handler).
    destruct (failures_to_the_end left c1)
      as (c' & out & Hrun & Hws & Hatt & Hann & Hsch & Hgu); [done|done|].
    exists c', ([LogClosed 1006 EmptyString;
                 LogAttempt 1 (Z.of_nat (S left));
                 SetTimeout delay] ++ out)%list.
    change (lost :: failures (S left)) with ([lost] ++ failures (S left))%list.
    assert (run [lost] (mkSubscriber sock 0 false
                          (mkConfig h p delay (Z.of_nat (S left)) v) handler)
            = Normal (c1, [LogClosed 1006 EmptyString;
                           LogAttempt 1 (Z.of_nat (S left));
                           SetTimeout delay])) as Hfirst.
    { unfold lost. cbn [run step]. unfold on_close, attemptReconnect.
      cbn [isReconnecting reconnectAttempts config maxReconnectAttempts
           orb].
      assert ((Z.of_nat (S left) <=? Z.of_nat 0)%Z = false) as ->
        by (apply Z.leb_gt; lia).
      done. }
    rewrite (run_app_Normal _ _ _ _ _ _ _ Hfirst Hrun).
    rewrite attempts_announced_app, gave_up_app,
      CollectorClaims.scheduled_app, Hann, Hgu, Hsch.
    done.
Qed.

(** X17.  [disconnect] does not end the reconnecting: when the socket that it
    closed reports its [close] event, the client schedules a reconnect as
    after any lost connection, and the timer opens a new socket. *)
Theorem disconnect_then_close_reconnects (c : CollectorSubscriber)
    (code : nat) (reason : string) :
  is_Some (ws c) →
  isReconnecting c = false →
  (Z.of_nat (reconnectAttempts c) < maxReconnectAttempts (config c))%Z →
  ∃ c' out,
    run [CallDisconnect; Close code reason; Timer] c = Normal (c', out)
    ∧ scheduled out = 1
    ∧ attempts_announced out = [S (reconnectAttempts c)]
    ∧ is_Some (ws c').
Proof.
  intros [sock Hws] Hflag Hlt.
  destruct c as [sock' attempts flag [h p delay maximum v] handler].
  simpl in *. subst sock' flag. apply Z.leb_gt in Hlt.
  unfold on_close, attemptReconnect. simpl. rewrite Hlt. simpl.
  eexists _, _. split; [reflexivity|]. simpl. by destruct v.
Qed.


(** X19.  With the callback of the entry point registered, a frame that
    decodes to an envelope never makes the [message] listener throw,
    whatever its event and its payload. *)
Theorem entry_point_never_throws (AppReceiptData : Type)
    (safeJsonParse : string → completion AppReceiptData)
    (c : CollectorSubscriber) (message : WebSocketMessage) :
  let c' := onData (entry_point_handler AppReceiptData safeJsonParse) c in
  ∃ out, step (Message (EnvelopeText message)) c' = Normal (c', out).
Proof.
  intros c'.
  destruct (CollectorClaims.entry_point_frame_handled AppReceiptData
              safeJsonParse c' message) as [out Hout]; [done|].
  exists out. simpl. by rewrite Hout.
Qed.

End CollectorMoreFacts.

(** ** Properties of the entry point *)

Module ReceiptsFacts.
Import Notifier Receipts.

Section EntryPointFacts.

Variable toLowerCase : string → string.
Variable isShardusAddress : string → bool.
Variable isExpoPushToken : string → bool.
Variable Data : Type.
Variable emptyObject : Data.
Variable sendPushNotificationsAsync :
  list (ExpoPushMessage Data) → provider_outcome.
Variable Timestamp : Type.
Variable AdditionalInfo : Type.
Variable toEthereumAddress : string → option string.
Variable amountText : AdditionalInfo → option string.
Variable toISOString : Timestamp → option string.
Variable receiptData : string → string → string → Data.

#[local] Abbreviation process :=
  (processAppReceiptData Data emptyObject sendPushNotificationsAsync
     Timestamp AdditionalInfo toEthereumAddress amountText toISOString
     receiptData).

#[local] Abbreviation receipt_type := (AppReceiptData Timestamp AdditionalInfo).

(** The messages of one [sendNotification] go to the stored push token. *)
Lemma sendNotification_recipient (d : string)
    (notification : NotificationPayload Data) (st : Service)
    (ms : list (ExpoPushMessage Data)) (m : ExpoPushMessage Data) :
  ms ∈ (sendNotification Data emptyObject sendPushNotificationsAsync d
          notification st).2 →
  m ∈ ms →
  to Data m ≠ EmptyString ∧ pushTokenOf st d = Some (to Data m).
Proof.
  unfold sendNotification, pushTokenOf.
  destruct (subscriptions st !! d) as [s|]; simpl;
    [|by intros ?%elem_of_nil].
  destruct (expoPushToken s) as [tok|]; simpl; [|by intros ?%elem_of_nil].
  case_bool_decide; simpl; [by intros ?%elem_of_nil|].
  by intros ->%list_elem_of_singleton ->%list_elem_of_singleton.
Qed.

(** X20.  [processAppReceiptData] hands the provider a message only for a
    successful receipt of type [message] or [transfer] that names a
    recipient, and every message goes to the non-empty push token stored for
    a device that the index holds at the recipient address, exactly as the
    receipt writes it. *)
Theorem receipt_notifies_only_subscribers (receipt : receipt_type)
    (st : Service) (ms : list (ExpoPushMessage Data))
    (m : ExpoPushMessage Data) :
  ms ∈ process receipt st →
  m ∈ ms →
  receipt_success Timestamp AdditionalInfo receipt = true
  ∧ (type Timestamp AdditionalInfo receipt = "message"
     ∨ type Timestamp AdditionalInfo receipt = "transfer")
  ∧ ∃ address d,
      receipt_to Timestamp AdditionalInfo receipt = Some address
      ∧ d ∈ getDevicesForAddress address st
      ∧ pushTokenOf st d = Some (to Data m)
      ∧ to Data m ≠ EmptyString.
Proof.
  unfold processAppReceiptData.
  destruct (receipt_success _ _ receipt); simpl; [|by intros ?%elem_of_nil].
  case_decide as Hsz; [by intros ?%elem_of_nil|].
  destruct (describe _ _ _ _ receipt) as [[[title body]|]|] eqn:Hd;
    [|by intros ?%elem_of_nil..].
  destruct (toEthereumAddress _ ≫= _) as [notificationData|];
    [|by intros ?%elem_of_nil].
  intros Hms Hm. split; [done|]. split.
  { unfold describe in Hd. repeat case_decide; auto. done. }
  destruct (receipt_to _ _ receipt) as [address|]; [|by rewrite size_empty in Hsz].
  apply list_elem_of_In, in_concat in Hms as (calls & Hcalls & Hin).
  apply list_elem_of_In, list_elem_of_fmap in Hcalls as (d & -> & Hd').
  apply list_elem_of_In in Hin.
  destruct (sendNotification_recipient _ _ _ _ _ Hin Hm) as (Hne & Htok).
  exists address, d. split; [done|]. split; [|done].
  by apply elem_of_elements in Hd'.
Qed.

(** X21.  From subscription to delivery: once [POST /subscribe] has added a
    subscription, a successful [message] receipt for the lower-cased form of
    one of its addresses makes the provider receive one message addressed to
    the push token of the request, with the title and the body of a new
    message, when the sender address and the timestamp convert. *)
Theorem receipt_reaches_subscriber (now : string)
    (req : SubscriptionRequest) (st st' : Service) (d : string)
    (count : option nat) (addrs : list string) (tok a sender time : string)
    (receipt : receipt_type) :
  consistent st →
  subscribe toLowerCase isShardusAddress isExpoPushToken now req st
  = (st', ApiResponse true "Subscription added successfully" d count) →
  req_addresses req = Some addrs →
  req_expoPushToken req = Some tok →
  a ∈ addrs →
  receipt_success Timestamp AdditionalInfo receipt = true →
  type Timestamp AdditionalInfo receipt = "message" →
  receipt_to Timestamp AdditionalInfo receipt = Some (toLowerCase a) →
  toEthereumAddress (from Timestamp AdditionalInfo receipt) = Some sender →
  toISOString (timestamp Timestamp AdditionalInfo receipt) = Some time →
  [mkExpoPushMessage Data tok "default" "📬 New Message"
     ("📧 You have a new message from " ++ sender ++ ".")
     (receiptData "message" sender time)]
  ∈ process receipt st'.
Proof.
  intros Hc Hsub Haddrs Htok Ha Hok Htype Hto Hsender Htime.
  assert (st' = addSubscription toLowerCase now d addrs tok st
          ∧ tok ≠ EmptyString) as [-> Hne].
  { unfold subscribe in Hsub. rewrite Haddrs, Htok in Hsub.
    destruct (falsy (req_deviceToken req)); simpl in Hsub; [done|].
    destruct addrs as [|a0 addrs]; [done|].
    destruct (negb _); [done|]. case_bool_decide; [done|].
    simpl in Hsub. case_bool_decide; simpl in Hsub; [done|].
    destruct (negb _); simplify_eq. done. }
  set (st' := addSubscription toLowerCase now d addrs tok st).
  assert (d ∈ getDevicesForAddress (toLowerCase a) st') as Hd.
  { apply elem_of_getDevices_addSubscription; [done|]. left.
    split; [done|]. by apply list_elem_of_fmap_2. }
  unfold processAppReceiptData. rewrite Hok, Hto. simpl.
  rewrite decide_False.
  2: { intros Hsz. apply size_empty_iff in Hsz. set_solver. }
  unfold describe. rewrite Htype, Hsender, Htime. simpl.
  apply list_elem_of_In, in_concat.
  eexists. split.
  - apply list_elem_of_In, list_elem_of_fmap. exists d. split; [done|].
    by apply elem_of_elements.
  - apply list_elem_of_In. unfold sendNotification. unfold st' at 1.
    rewrite addSubscription_subscriptions, decide_True by done. simpl.
    rewrite bool_decide_eq_false_2 by done. simpl.
    apply list_elem_of_here.
Qed.

End EntryPointFacts.

End ReceiptsFacts.

(** ** Examples of the properties above *)

Lemma addSubscription_takes_over_witness :
  consistent two_addresses
  ∧ ("dev1" ∈ getDevicesForAddress "0xbb"
               (addSubscription toLowerCase_ascii "t2" "dev2" ["0xAA"] "tokA"
                                two_addresses)
     ↔ ("dev1" = "dev2" ∧ "0xbb" ∈ toLowerCase_ascii <$> ["0xAA"])
       ∨ ("dev1" ≠ "dev2" ∧ "dev1" ∈ getDevicesForAddress "0xbb" two_addresses
          ∧ ¬ (pushTokenOf two_addresses "dev1" = Some "tokA"
               ∧ "0xbb" ∈ toLowerCase_ascii <$> ["0xAA"]))).
Proof.
  split; [apply two_addresses_consistent|].
  apply (addSubscription_takes_over toLowerCase_ascii "t2" "dev2" ["0xAA"]
           "tokA" two_addresses "0xbb" "dev1").
  apply two_addresses_consistent.
Defined.

Lemma addSubscription_other_token_untouched_witness :
  ("dev1" ≠ "dev2" ∧ pushTokenOf two_addresses "dev1" ≠ Some "tokB")
  ∧ subscriptions (addSubscription toLowerCase_ascii "t2" "dev2" ["0xAA"]
                                   "tokB" two_addresses) !! "dev1"
    = subscriptions two_addresses !! "dev1".
Proof.
  assert (pushTokenOf two_addresses "dev1" ≠ Some "tokB") as Htok.
  { intros H. vm_compute in H. discriminate H. }
  split; [split; [done|exact Htok]|].
  apply (addSubscription_other_token_untouched toLowerCase_ascii "t2" "dev2"
           ["0xAA"] "tokB" two_addresses "dev1"); [done|exact Htok].
Defined.

Lemma token_exclusive_after_calls_witness :
  let st :=
    run toLowerCase_ascii
        [Add "t1" "dev1" ["0xAA"] "tokA"; Add "t2" "dev2" ["0xAA"] "tokB"]
        empty_service in
  "dev1" ≠ "dev2"
  ∧ "dev1" ∈ getDevicesForAddress "0xaa" st
  ∧ "dev2" ∈ getDevicesForAddress "0xaa" st
  ∧ pushTokenOf st "dev1" = Some "tokA"
  ∧ pushTokenOf st "dev2" ≠ Some "tokA".
Proof.
  intros st.
  assert ("dev1" ∈ getDevicesForAddress "0xaa" st) as H1.
  { apply (bool_decide_unpack _). vm_compute. exact I. }
  assert ("dev2" ∈ getDevicesForAddress "0xaa" st) as H2.
  { apply (bool_decide_unpack _). vm_compute. exact I. }
  assert (pushTokenOf st "dev1" = Some "tokA") as H3.
  { vm_compute. reflexivity. }
  split; [done|]. split; [exact H1|]. split; [exact H2|].
  split; [exact H3|].
  apply (token_exclusive_after_calls toLowerCase_ascii
           [Add "t1" "dev1" ["0xAA"] "tokA"; Add "t2" "dev2" ["0xAA"] "tokB"]
           "dev1" "dev2" "0xaa" "tokA"); [done|exact H1|exact H2|exact H3].
Defined.

Lemma addSubscription_empty_list_witness :
  consistent two_addresses
  ∧ let st' :=
      addSubscription toLowerCase_ascii "t2" "dev1" [] "tokB" two_addresses in
    subscriptions st' !! "dev1" = Some (mkSubscription ∅ (Some "tokB") "t2")
    ∧ (∀ o, o ≠ "dev1" →
            subscriptions st' !! o = subscriptions two_addresses !! o)
    ∧ (∀ a, "dev1" ∉ getDevicesForAddress a st')
    ∧ (∀ a o, o ≠ "dev1" →
         o ∈ getDevicesForAddress a st'
         ↔ o ∈ getDevicesForAddress a two_addresses)
    ∧ ¬ subscriptions_no_empty (subscriptions st').
Proof.
  split; [apply two_addresses_consistent|].
  apply (addSubscription_empty_list toLowerCase_ascii "t2" "dev1" "tokB"
           two_addresses).
  apply two_addresses_consistent.
Defined.

Lemma resubscribe_same_witness :
  consistent two_addresses
  ∧ let st1 :=
      addSubscription toLowerCase_ascii "t2" "dev2" ["0xAA"] "tokA"
                      two_addresses in
    let st2 :=
      addSubscription toLowerCase_ascii "t3" "dev2" ["0xAA"] "tokA" st1 in
    subscriptions st2
    = <["dev2" := mkSubscription (list_to_set (toLowerCase_ascii <$> ["0xAA"]))
                                 (Some "tokA") "t3"]> (subscriptions st1)
    ∧ addressToDevices st2 = addressToDevices st1.
Proof.
  split; [apply two_addresses_consistent|].
  apply (resubscribe_same toLowerCase_ascii "t2" "t3" "dev2" ["0xAA"] "tokA"
           two_addresses).
  apply two_addresses_consistent.
Defined.

Lemma two_addresses_invariant : registry_invariant two_addresses.
Proof.
  apply run_invariant; [|apply empty_service_invariant].
  repeat constructor; done.
Qed.

Lemma addSubscription_same_addresses_witness :
  (registry_invariant two_addresses
   ∧ ∀ a, a ∈ toLowerCase_ascii <$> ["0xCC"; "0xaa"; "0xcc"]
          ↔ a ∈ toLowerCase_ascii <$> ["0xAA"; "0xCC"])
  ∧ subscriptions
      (addSubscription toLowerCase_ascii "t2" "dev2" ["0xCC"; "0xaa"; "0xcc"]
                       "tokB" two_addresses)
    = subscriptions
        (addSubscription toLowerCase_ascii "t2" "dev2" ["0xAA"; "0xCC"] "tokB"
                         two_addresses)
  ∧ addressToDevices
      (addSubscription toLowerCase_ascii "t2" "dev2" ["0xCC"; "0xaa"; "0xcc"]
                       "tokB" two_addresses)
    = addressToDevices
        (addSubscription toLowerCase_ascii "t2" "dev2" ["0xAA"; "0xCC"] "tokB"
                         two_addresses).
Proof.
  assert (∀ a, a ∈ toLowerCase_ascii <$> ["0xCC"; "0xaa"; "0xcc"]
               ↔ a ∈ toLowerCase_ascii <$> ["0xAA"; "0xCC"]) as Hsame.
  { intros a.
    change (a ∈ ["0xcc"; "0xaa"; "0xcc"] ↔ a ∈ ["0xaa"; "0xcc"]).
    rewrite !elem_of_cons, !elem_of_nil. naive_solver. }
  split; [split; [apply two_addresses_invariant|exact Hsame]|].
  apply (addSubscription_same_addresses toLowerCase_ascii "t2" "dev2"
           ["0xCC"; "0xaa"; "0xcc"] ["0xAA"; "0xCC"] "tokB" two_addresses);
    [apply two_addresses_invariant|exact Hsame].
Defined.


Lemma getSubscription_after_subscribe_witness :
  let req :=
    mkSubscriptionRequest (Some "dev2") (Some [UPPER_ADDRESS])
                          (Some "ExponentPushToken[y]") in
  let st' :=
    addSubscription toLowerCase_ascii "t2" "dev2" [UPPER_ADDRESS]
                    "ExponentPushToken[y]" one_address in
  subscribe toLowerCase_ascii hex64 exponent_token "t2" req one_address
  = (st', ApiResponse true "Subscription added successfully" "dev2" (Some 1))
  ∧ ∃ addrs l,
      req_addresses req = Some addrs
      ∧ getSubscription "dev2" st' = SubscriptionInfo "dev2" l true
      ∧ NoDup l
      ∧ ∀ a, a ∈ l ↔ a ∈ toLowerCase_ascii <$> addrs.
Proof.
  intros req st'.
  assert (subscribe toLowerCase_ascii hex64 exponent_token "t2" req
                    one_address
          = (st', ApiResponse true "Subscription added successfully" "dev2"
                              (Some 1))) as Hsub.
  { vm_compute. reflexivity. }
  split; [exact Hsub|].
  apply (getSubscription_after_subscribe toLowerCase_ascii hex64
           exponent_token "t2" req one_address st' "dev2"
           "Subscription added successfully" (Some 1) Hsub).
  reflexivity.
Defined.

Lemma failures_use_whole_budget_witness :
  (Collector.reconnectAttempts Collector.budget_of_two = 0
   ∧ Collector.isReconnecting Collector.budget_of_two = false)
  ∧ ∃ c' out,
      Collector.run (Collector.lost :: CollectorMore.failures 2)
                    Collector.budget_of_two
      = Normal (c', out)
      ∧ Collector.attempts_announced out = [1; 2]
      ∧ Collector.scheduled out = 2
      ∧ Collector.gave_up out = true
      ∧ Collector.ws c' = None
      ∧ Collector.reconnectAttempts c' = 2.
Proof.
  split; [split; reflexivity|].
  apply (CollectorMoreFacts.failures_use_whole_budget
           Collector.budget_of_two); reflexivity.
Defined.

Lemma disconnect_then_close_reconnects_witness :
  (is_Some (Collector.ws Collector.budget_of_two)
   ∧ Collector.isReconnecting Collector.budget_of_two = false
   ∧ (Z.of_nat (Collector.reconnectAttempts Collector.budget_of_two)
      < Collector.maxReconnectAttempts
          (Collector.config Collector.budget_of_two))%Z)
  ∧ ∃ c' out,
      Collector.run
        [Collector.CallDisconnect; Collector.Close 1000 "bye";
         Collector.Timer]
        Collector.budget_of_two
      = Normal (c', out)
      ∧ Collector.scheduled out = 1
      ∧ Collector.attempts_announced out = [1]
      ∧ is_Some (Collector.ws c').
Proof.
  assert (is_Some (Collector.ws Collector.budget_of_two)) as Hws.
  { eexists. reflexivity. }
  assert ((Z.of_nat (Collector.reconnectAttempts Collector.budget_of_two)
           < Collector.maxReconnectAttempts
               (Collector.config Collector.budget_of_two))%Z) as Hlt.
  { reflexivity. }
  split; [split; [exact Hws|split; [reflexivity|exact Hlt]]|].
  apply (CollectorMoreFacts.disconnect_then_close_reconnects
           Collector.budget_of_two 1000 "bye" Hws eq_refl Hlt).
Defined.

Lemma receipt_notifies_only_subscribers_witness :
  let m :=
    Notifier.mkExpoPushMessage string "ExponentPushToken[x]" "default"
      "📬 New Message" "📧 You have a new message from alice."
      "message:alice:2025-01-01" in
  ([m] ∈ Receipts.example_process Receipts.message_receipt one_address
   ∧ m ∈ [m])
  ∧ Receipts.receipt_success string unit Receipts.message_receipt = true
  ∧ (Receipts.type string unit Receipts.message_receipt = "message"
     ∨ Receipts.type string unit Receipts.message_receipt = "transfer")
  ∧ ∃ address d,
      Receipts.receipt_to string unit Receipts.message_receipt = Some address
      ∧ d ∈ getDevicesForAddress address one_address
      ∧ pushTokenOf one_address d = Some (Notifier.to string m)
      ∧ Notifier.to string m ≠ EmptyString.
Proof.
  intros m.
  assert ([m] ∈ Receipts.example_process Receipts.message_receipt
                  one_address) as Hms.
  { assert (Receipts.example_process Receipts.message_receipt one_address
            = [[m]]) as ->; [vm_compute; reflexivity|].
    apply list_elem_of_here. }
  assert (m ∈ [m]) as Hm by apply list_elem_of_here.
  split; [split; [exact Hms|exact Hm]|].
  apply (ReceiptsFacts.receipt_notifies_only_subscribers string EmptyString
           Receipts.accepting string unit Some (λ _, Some "1") Some
           Receipts.example_data Receipts.message_receipt one_address [m] m
           Hms Hm).
Defined.

Lemma receipt_reaches_subscriber_witness :
  let req :=
    mkSubscriptionRequest (Some "dev2") (Some [UPPER_ADDRESS])
                          (Some "ExponentPushToken[y]") in
  let st' :=
    addSubscription toLowerCase_ascii "t2" "dev2" [UPPER_ADDRESS]
                    "ExponentPushToken[y]" one_address in
  (consistent one_address
   ∧ subscribe toLowerCase_ascii hex64 exponent_token "t2" req one_address
     = (st', ApiResponse true "Subscription added successfully" "dev2"
                         (Some 1))
   ∧ req_addresses req = Some [UPPER_ADDRESS]
   ∧ req_expoPushToken req = Some "ExponentPushToken[y]"
   ∧ UPPER_ADDRESS ∈ [UPPER_ADDRESS]
   ∧ Receipts.receipt_success string unit Receipts.message_receipt = true
   ∧ Receipts.type string unit Receipts.message_receipt = "message"
   ∧ Receipts.receipt_to string unit Receipts.message_receipt
     = Some (toLowerCase_ascii UPPER_ADDRESS)
   ∧ Some (Receipts.from string unit Receipts.message_receipt) = Some "alice"
   ∧ Some (Receipts.timestamp string unit Receipts.message_receipt)
     = Some "2025-01-01")
  ∧ [Notifier.mkExpoPushMessage string "ExponentPushToken[y]" "default"
       "📬 New Message" ("📧 You have a new message from " ++ "alice" ++ ".")
       (Receipts.example_data "message" "alice" "2025-01-01")]
    ∈ Receipts.example_process Receipts.message_receipt st'.
Proof.
  intros req st'.
  assert (subscribe toLowerCase_ascii hex64 exponent_token "t2" req
                    one_address
          = (st', ApiResponse true "Subscription added successfully" "dev2"
                              (Some 1))) as Hsub.
  { vm_compute. reflexivity. }
  assert (UPPER_ADDRESS ∈ [UPPER_ADDRESS]) as Ha by apply list_elem_of_here.
  split.
  { split; [apply one_address_consistent|]. split; [exact Hsub|].
    split; [reflexivity|]. split; [reflexivity|]. split; [exact Ha|].
    split; [reflexivity|]. split; [reflexivity|]. split; [reflexivity|].
    split; reflexivity. }
  apply (ReceiptsFacts.receipt_reaches_subscriber toLowerCase_ascii hex64
           exponent_token string EmptyString Receipts.accepting string unit
           Some (λ _, Some "1") Some Receipts.example_data "t2" req
           one_address st' "dev2" (Some 1) [UPPER_ADDRESS]
           "ExponentPushToken[y]" UPPER_ADDRESS "alice" "2025-01-01"
           Receipts.message_receipt one_address_consistent Hsub eq_refl
           eq_refl Ha eq_refl eq_refl eq_refl eq_refl eq_refl).
Defined.
